(** * Verification of the generation pipeline of spin-ai-v2

    Shallow embedding of the server route [src/app/api/anthropic/route.ts],
    the client stream consumers ([src/app/workspace/page.tsx] and the
    generation page) and the character-reveal scheduler
    ([MultiFileStreamingDisplay]).

    JavaScript strings are sequences of UTF-16 code units; they are
    modelled as [list N], one [N] per code unit.  A plain JS object used
    as a dictionary from file path to content (a FileState) is a
    [gmap jstr jstr]. *)

From Stdlib Require Import String Ascii QArith.
From stdpp Require Import base gmap list.

Abbreviation jstr := (list N).

(** ASCII literal to JS code units. *)
Definition u (s : string) : jstr :=
  map (fun a => N_of_ascii a) (list_ascii_of_string s).

(** Test texts containing JSON are written with [']: each one stands for
    the double quote. *)
Definition uj (s : string) : jstr :=
  map (fun c => if N.eqb c 39 then 34%N else c) (u s).

(** JavaScript truthiness of a value that is a string or [undefined]. *)
Definition truthy (x : option jstr) : bool :=
  match x with
  | Some (_ :: _) => true
  | _ => false
  end.

(** ** FileState and FileChange *)

Abbreviation filestate := (gmap jstr jstr).

Inductive change_status := St_new | St_updated | St_deleted.

Record FileChange := mkFileChange {
  fc_path : jstr;
  fc_status : change_status;
  fc_previousContent : option jstr
}.

(** [Object.keys]: the own keys of the object.  JS enumerates them in
    property order; the model takes [map_to_list]'s order, none of the
    properties below depends on the order. *)
Definition object_keys (m : filestate) : list jstr := (map_to_list m).*1.

(** [new Set([...a, ...b])]: duplicates dropped, first occurrence kept. *)
Fixpoint set_of_list_aux (seen : list jstr) (l : list jstr) : list jstr :=
  match l with
  | [] => []
  | x :: r =>
      if bool_decide (x ∈ seen) then set_of_list_aux seen r
      else x :: set_of_list_aux (x :: seen) r
  end.

Definition set_of_list (l : list jstr) : list jstr := set_of_list_aux [] l.

(** [detectFileChanges] (route.ts).  [previousFiles[path]] is [undefined]
    when the path is absent; the tests [!prevContent] and [newContent] are
    JS truthiness tests, [!==] is strict (in)equality. *)
Definition classify_path (previousFiles newFiles : filestate) (path : jstr)
    : option FileChange :=
  let prevContent := previousFiles !! path in
  let newContent := newFiles !! path in
  if negb (truthy prevContent) && truthy newContent then
    Some (mkFileChange path St_new None)
  else if truthy prevContent && negb (truthy newContent) then
    Some (mkFileChange path St_deleted prevContent)
  else if bool_decide (prevContent <> newContent) then
    Some (mkFileChange path St_updated prevContent)
  else None.

(** The names of the members of [Object.prototype]: on a plain object
    without an own property of that name, [obj[name]] finds the member
    (a function, or the prototype itself for "__proto__"), which is
    truthy and no string. *)
Definition object_prototype_keys : list jstr :=
  [u "constructor"; u "__defineGetter__"; u "__defineSetter__"; u "hasOwnProperty";
   u "__lookupGetter__"; u "__lookupSetter__"; u "isPrototypeOf";
   u "propertyIsEnumerable"; u "toString"; u "valueOf"; u "__proto__";
   u "toLocaleString"].

(** The loop [for (const path of allPaths)], pushing each classified
    path onto [changes]. *)
Fixpoint push_changes (previousFiles newFiles : filestate) (paths : list jstr)
    : list FileChange :=
  match paths with
  | [] => []
  | path :: rest =>
      match classify_path previousFiles newFiles path with
      | Some c => c :: push_changes previousFiles newFiles rest
      | None => push_changes previousFiles newFiles rest
      end
  end.

Definition detectFileChanges (previousFiles newFiles : filestate)
    : list FileChange :=
  let allPaths :=
    set_of_list (object_keys previousFiles ++ object_keys newFiles) in
  push_changes previousFiles newFiles allPaths.

(** ** Upstream client: [fetchWithRetry] *)

(** An HTTP response of the provider: its status, its body as the
    sequence of chunks the reader yields, decoded ([None] when
    [response.body] is null), and whether reading fails after them. *)
Record upstream_response := mkResponse {
  resp_status : Z;
  resp_body : option (list jstr);
  resp_body_fails : bool
}.

Definition resp_ok (r : upstream_response) : bool :=
  (200 <=? resp_status r)%Z && (resp_status r <=? 299)%Z.

(** The outcome of one [fetch] call. *)
Inductive fetch_result :=
  | Fetch_network_error
  | Fetch_response (r : upstream_response).

(** Errors raised along the route; the error message of each is noted. *)
Inductive extract_error :=
  | Ex_syntax          (* JSON.parse throws a SyntaxError *)
  | Ex_not_object      (* "Response is not a valid object" *)
  | Ex_to_primitive    (* String(value) throws a TypeError *)
  | Ex_no_files.       (* "No files generated" *)

Inductive err :=
  | Err_status (n : Z)          (* "Status: n" *)
  | Err_network                 (* the rejection of fetch *)
  | Err_max_retries             (* "Max retries reached" *)
  | Err_empty_stream_body       (* "Empty stream body" *)
  | Err_extract (e : extract_error)
                                (* "Failed to parse generated code: ..." *)
  | Err_truncated               (* "Response truncated: ..." *)
  | Err_no_content              (* "No content generated by Anthropic API" *)
  | Err_response_json           (* response.json() rejects *)
  | Err_type                    (* TypeError: property read on undefined *)
  | Err_save                    (* conversation.save() rejects *)
  | Err_find                    (* Conversation.findById rejects *)
  | Err_connect.                (* connectMongo rejects *)

(** What the retry loop does, in order: a fetch of the given attempt
    number, or a sleep of the given number of milliseconds. *)
Inductive retry_action :=
  | Act_fetch (attempt : nat)
  | Act_sleep (ms : Q).

(** The [for] loop of [fetchWithRetry]; [fuel] is the number of
    iterations left ([retries - attempt + 1]).  [fetch attempt] is the
    outcome of the fetch made at that attempt. *)
Fixpoint retry_loop (fetch : nat -> fetch_result) (retries : nat)
    (backoff : Q) (attempt fuel : nat)
    : list retry_action * (err + upstream_response) :=
  match fuel with
  | O => ([], inl Err_max_retries)
  | S fuel' =>
      (* catch (err): rethrow on the last attempt, else sleep and
         multiply the backoff by 1.5 *)
      let on_error (e : err) :=
        if Nat.eqb attempt retries then ([Act_fetch attempt], inl e)
        else
          let '(acts, res) :=
            retry_loop fetch retries (backoff * (3 # 2)) (S attempt) fuel' in
          (Act_fetch attempt :: Act_sleep backoff :: acts, res) in
      match fetch attempt with
      | Fetch_network_error => on_error Err_network
      | Fetch_response r =>
          if (resp_status r =? 529)%Z && Nat.ltb attempt retries then
            let '(acts, res) :=
              retry_loop fetch retries (backoff * 2) (S attempt) fuel' in
            (Act_fetch attempt :: Act_sleep backoff :: acts, res)
          else if negb (resp_ok r) then on_error (Err_status (resp_status r))
          else ([Act_fetch attempt], inr r)
      end
  end.

Definition fetchWithRetry_gen (fetch : nat -> fetch_result) (retries : nat)
    (backoff : Q) : list retry_action * (err + upstream_response) :=
  retry_loop fetch retries backoff 1 retries.

(** The call sites use the defaults [retries = 3], [backoff = 1000]. *)
Definition fetchWithRetry (fetch : nat -> fetch_result)
    : list retry_action * (err + upstream_response) :=
  fetchWithRetry_gen fetch 3 1000.

(** ** JavaScript strings: search, whitespace, trim *)

(** [pat] is a prefix of [s]. *)
Fixpoint is_prefix (pat s : jstr) : bool :=
  match pat, s with
  | [], _ => true
  | p :: pr, c :: r => N.eqb p c && is_prefix pr r
  | _ :: _, [] => false
  end.

(** [s.indexOf(pat)], counting from [i]. *)
Fixpoint index_of_from (pat s : jstr) (i : nat) : option nat :=
  match s with
  | [] => if is_prefix pat [] then Some i else None
  | _ :: r => if is_prefix pat s then Some i else index_of_from pat r (S i)
  end.

Definition index_of (pat s : jstr) : option nat := index_of_from pat s 0.

(** [s.includes(pat)]. *)
Definition includes (pat s : jstr) : Prop := exists k1 k2, s = k1 ++ pat ++ k2.

(** The code units matched by the regular-expression class [\s] and
    removed by [String.prototype.trim] (WhiteSpace and LineTerminator). *)
Definition is_js_ws (c : N) : bool :=
  N.eqb c 9 || N.eqb c 10 || N.eqb c 11 || N.eqb c 12 || N.eqb c 13 ||
  N.eqb c 32 || N.eqb c 160 || N.eqb c 5760 ||
  (N.leb 8192 c && N.leb c 8202) || N.eqb c 8232 || N.eqb c 8233 ||
  N.eqb c 8239 || N.eqb c 8287 || N.eqb c 12288 || N.eqb c 65279.

Fixpoint drop_js_ws (s : jstr) : jstr :=
  match s with
  | c :: r => if is_js_ws c then drop_js_ws r else s
  | [] => []
  end.

Definition strip_trailing_js_ws (s : jstr) : jstr := rev (drop_js_ws (rev s)).

(** [String.prototype.trim]. *)
Definition js_trim (s : jstr) : jstr := strip_trailing_js_ws (drop_js_ws s).

(** ** JSON values, [JSON.parse] and [JSON.stringify] *)

(** A value produced by [JSON.parse].  Numbers keep their source text;
    an object is its list of own properties, each key once. *)
#[warnings="-register-all"]
Inductive jvalue :=
  | JNull
  | JBool (b : bool)
  | JNum (lexeme : jstr)
  | JStr (s : jstr)
  | JArr (elems : list jvalue)
  | JObj (props : list (jstr * jvalue)).

(** Whitespace of the JSON grammar: tab, line feed, carriage return,
    space. *)
Definition is_json_ws (c : N) : bool :=
  N.eqb c 9 || N.eqb c 10 || N.eqb c 13 || N.eqb c 32.

Fixpoint skip_json_ws (s : jstr) : jstr :=
  match s with
  | c :: r => if is_json_ws c then skip_json_ws r else s
  | [] => []
  end.

Definition hex_value (c : N) : option N :=
  if N.leb 48 c && N.leb c 57 then Some (c - 48)%N
  else if N.leb 97 c && N.leb c 102 then Some (c - 87)%N
  else if N.leb 65 c && N.leb c 70 then Some (c - 55)%N
  else None.

(** The body of a JSON string literal, after its opening quote: the
    code units it denotes and the text after the closing quote.  A raw
    code unit below 0x20 is a syntax error. *)
Fixpoint parse_str (s : jstr) : option (jstr * jstr) :=
  match s with
  | [] => None
  | c :: r =>
      if N.eqb c 34 then Some ([], r)
      else if N.eqb c 92 then
        match r with
        | [] => None
        | e :: r' =>
            let simple (x : N) :=
              match parse_str r' with
              | Some (body, rest) => Some (x :: body, rest)
              | None => None
              end in
            if N.eqb e 34 then simple 34%N
            else if N.eqb e 92 then simple 92%N
            else if N.eqb e 47 then simple 47%N
            else if N.eqb e 98 then simple 8%N
            else if N.eqb e 102 then simple 12%N
            else if N.eqb e 110 then simple 10%N
            else if N.eqb e 114 then simple 13%N
            else if N.eqb e 116 then simple 9%N
            else if N.eqb e 117 then
              match r' with
              | h1 :: h2 :: h3 :: h4 :: r'' =>
                  match hex_value h1, hex_value h2, hex_value h3, hex_value h4 with
                  | Some a, Some b, Some c', Some d =>
                      match parse_str r'' with
                      | Some (body, rest) =>
                          Some ((4096 * a + 256 * b + 16 * c' + d)%N :: body, rest)
                      | None => None
                      end
                  | _, _, _, _ => None
                  end
              | _ => None
              end
            else None
        end
      else if N.ltb c 32 then None
      else
        match parse_str r with
        | Some (body, rest) => Some (c :: body, rest)
        | None => None
        end
  end.

Definition is_digit (c : N) : bool := N.leb 48 c && N.leb c 57.

Fixpoint take_digits (s : jstr) : jstr * jstr :=
  match s with
  | c :: r =>
      if is_digit c then let '(d, rest) := take_digits r in (c :: d, rest)
      else ([], s)
  | [] => ([], [])
  end.

(** A JSON number: [-? (0 | [1-9][0-9]* ) (. [0-9]+)? ([eE] [+-]? [0-9]+)?];
    its source text and the text after it. *)
Definition parse_number (s : jstr) : option (jstr * jstr) :=
  let '(sign, s1) :=
    match s with
    | c :: r => if N.eqb c 45 then ([c], r) else ([], s)
    | [] => ([], [])
    end in
  let int_part :=
    match s1 with
    | c :: r =>
        if N.eqb c 48 then Some ([c], r)
        else if is_digit c then let '(d, rest) := take_digits r in Some (c :: d, rest)
        else None
    | [] => None
    end in
  match int_part with
  | None => None
  | Some (i, s2) =>
      let frac :=
        match s2 with
        | c :: r =>
            if N.eqb c 46 then
              match take_digits r with
              | ([], _) => None
              | (d, rest) => Some (c :: d, rest)
              end
            else Some ([], s2)
        | [] => Some ([], [])
        end in
      match frac with
      | None => None
      | Some (f, s3) =>
          let exp :=
            match s3 with
            | c :: r =>
                if N.eqb c 101 || N.eqb c 69 then
                  let '(sg, r1) :=
                    match r with
                    | x :: r0 => if N.eqb x 43 || N.eqb x 45 then ([x], r0) else ([], r)
                    | [] => ([], [])
                    end in
                  match take_digits r1 with
                  | ([], _) => None
                  | (d, rest) => Some (c :: sg ++ d, rest)
                  end
                else Some ([], s3)
            | [] => Some ([], [])
            end in
          match exp with
          | None => None
          | Some (e, s4) => Some (sign ++ i ++ f ++ e, s4)
          end
      end
  end.

(** Defining a property of an object being parsed: a repeated key keeps
    its first position and takes the last value. *)
Fixpoint obj_set (props : list (jstr * jvalue)) (k : jstr) (v : jvalue)
    : list (jstr * jvalue) :=
  match props with
  | [] => [(k, v)]
  | (k', v') :: r =>
      if bool_decide (k' = k) then (k, v) :: r else (k', v') :: obj_set r k v
  end.

(** The members of an object after its [{]; [pv] parses a value.  [n]
    bounds the number of members (each takes at least one code unit). *)
Fixpoint parse_members (pv : jstr -> option (jvalue * jstr)) (n : nat)
    (acc : list (jstr * jvalue)) (s : jstr)
    : option (list (jstr * jvalue) * jstr) :=
  match n with
  | O => None
  | S n' =>
      match skip_json_ws s with
      | c :: r =>
          if N.eqb c 34 then
            match parse_str r with
            | Some (k, r1) =>
                match skip_json_ws r1 with
                | c1 :: r2 =>
                    if N.eqb c1 58 then
                      match pv r2 with
                      | Some (v, r3) =>
                          let acc' := obj_set acc k v in
                          match skip_json_ws r3 with
                          | c2 :: r4 =>
                              if N.eqb c2 44 then parse_members pv n' acc' r4
                              else if N.eqb c2 125 then Some (acc', r4)
                              else None
                          | [] => None
                          end
                      | None => None
                      end
                    else None
                | [] => None
                end
            | None => None
            end
          else None
      | [] => None
      end
  end.

(** The elements of an array after its [\[]. *)
Fixpoint parse_elems (pv : jstr -> option (jvalue * jstr)) (n : nat)
    (s : jstr) : option (list jvalue * jstr) :=
  match n with
  | O => None
  | S n' =>
      match pv s with
      | Some (v, r) =>
          match skip_json_ws r with
          | c :: r' =>
              if N.eqb c 44 then
                match parse_elems pv n' r' with
                | Some (vs, rest) => Some (v :: vs, rest)
                | None => None
                end
              else if N.eqb c 93 then Some ([v], r')
              else None
          | [] => None
          end
      | None => None
      end
  end.

(** A JSON value with leading whitespace.  [fuel] bounds the nesting
    depth; [JSON_parse] gives it the length of the text, which every
    nesting level consumes at least one code unit of. *)
Fixpoint parse_value (fuel : nat) (s : jstr) : option (jvalue * jstr) :=
  match fuel with
  | O => None
  | S f =>
      match skip_json_ws s with
      | [] => None
      | c :: r =>
          if N.eqb c 123 then
            match skip_json_ws r with
            | c' :: r' =>
                if N.eqb c' 125 then Some (JObj [], r')
                else match parse_members (parse_value f) (S (length r)) [] r with
                     | Some (props, rest) => Some (JObj props, rest)
                     | None => None
                     end
            | [] => None
            end
          else if N.eqb c 91 then
            match skip_json_ws r with
            | c' :: r' =>
                if N.eqb c' 93 then Some (JArr [], r')
                else match parse_elems (parse_value f) (S (length r)) r with
                     | Some (vs, rest) => Some (JArr vs, rest)
                     | None => None
                     end
            | [] => None
            end
          else if N.eqb c 34 then
            match parse_str r with
            | Some (str, rest) => Some (JStr str, rest)
            | None => None
            end
          else if is_prefix (u "true") (c :: r) then Some (JBool true, drop 4 (c :: r))
          else if is_prefix (u "false") (c :: r) then Some (JBool false, drop 5 (c :: r))
          else if is_prefix (u "null") (c :: r) then Some (JNull, drop 4 (c :: r))
          else match parse_number (c :: r) with
               | Some (lex, rest) => Some (JNum lex, rest)
               | None => None
               end
      end
  end.

(** [JSON.parse(text)]; [None] is a thrown SyntaxError. *)
Definition JSON_parse (text : jstr) : option jvalue :=
  match parse_value (S (length text)) text with
  | Some (v, rest) => if bool_decide (skip_json_ws rest = []) then Some v else None
  | None => None
  end.

Definition is_high_surrogate (c : N) : bool := N.leb 55296 c && N.leb c 56319.
Definition is_low_surrogate (c : N) : bool := N.leb 56320 c && N.leb c 57343.

Definition hex_digit (n : N) : N := if N.ltb n 10 then (48 + n)%N else (87 + n)%N.

(** [UnicodeEscape(c)]: [\u] and four lowercase hexadecimal digits. *)
Definition unicode_escape (c : N) : jstr :=
  [92; 117; hex_digit (c / 4096 mod 16); hex_digit (c / 256 mod 16);
   hex_digit (c / 16 mod 16); hex_digit (c mod 16)]%N.

(** One code unit of [QuoteJSONString] that is not part of a surrogate
    pair. *)
Definition quote_unit (c : N) : jstr :=
  if N.eqb c 8 then [92; 98]%N
  else if N.eqb c 9 then [92; 116]%N
  else if N.eqb c 10 then [92; 110]%N
  else if N.eqb c 12 then [92; 102]%N
  else if N.eqb c 13 then [92; 114]%N
  else if N.eqb c 34 then [92; 34]%N
  else if N.eqb c 92 then [92; 92]%N
  else if N.ltb c 32 || is_high_surrogate c || is_low_surrogate c then unicode_escape c
  else [c].

(** [QuoteJSONString] without the enclosing quotes: a surrogate pair is
    copied, every other code unit goes through [quote_unit]. *)
Fixpoint quote_json_body (s : jstr) : jstr :=
  match s with
  | [] => []
  | c :: r =>
      match r with
      | d :: r' =>
          if is_high_surrogate c && is_low_surrogate d then c :: d :: quote_json_body r'
          else quote_unit c ++ quote_json_body r
      | [] => quote_unit c ++ quote_json_body r
      end
  end.

Definition quote_json (s : jstr) : jstr := [34%N] ++ quote_json_body s ++ [34%N].

Definition member_text (kv : jstr * jstr) : jstr :=
  quote_json kv.1 ++ [58%N] ++ quote_json kv.2.

Fixpoint members_text (l : list (jstr * jstr)) : jstr :=
  match l with
  | [] => []
  | kv :: r =>
      member_text kv ++ match r with [] => [] | _ :: _ => [44%N] ++ members_text r end
  end.

(** [JSON.stringify(F)] of a FileState whose own properties, in order,
    are [l]. *)
Definition JSON_stringify_files (l : list (jstr * jstr)) : jstr :=
  [123%N] ++ members_text l ++ [125%N].

(** ** Extraction: [extractAndParseJSON] *)

(** The first match of [/```json\s*([\s\S]*?)\s*```/] and its group.
    The match starts at the first [```json]; the greedy [\s*] takes the
    whitespace after it (backtracking into it never helps, whitespace
    holds no backtick); the lazy group then ends at the first [```]
    after that point, less the whitespace before that [```], which the
    second [\s*] takes.  Without a [```] there, no later start matches
    either: a later [```json] would itself contain one. *)
Definition code_block_match (s : jstr) : option jstr :=
  match index_of (u "```json") s with
  | None => None
  | Some i =>
      let rest := drop_js_ws (drop (i + 7) s) in
      match index_of (u "```") rest with
      | None => None
      | Some p => Some (strip_trailing_js_ws (take p rest))
      end
  end.

(** The brace-matching loop, from [startIndex] ([i] is the index of the
    head of [s]); [Some endIndex] on [break]. *)
Fixpoint brace_scan (s : jstr) (i : nat) (braceCount : Z)
    (inString escaped : bool) : option nat :=
  match s with
  | [] => None
  | char :: r =>
      if negb inString then
        if N.eqb char 123 then brace_scan r (S i) (braceCount + 1)%Z inString escaped
        else if N.eqb char 125 then
          if Z.eqb (braceCount - 1) 0 then Some (S i)
          else brace_scan r (S i) (braceCount - 1)%Z inString escaped
        else if N.eqb char 34 then brace_scan r (S i) braceCount true escaped
        else brace_scan r (S i) braceCount inString escaped
      else
        if escaped then brace_scan r (S i) braceCount inString false
        else if N.eqb char 92 then brace_scan r (S i) braceCount inString true
        else if N.eqb char 34 then brace_scan r (S i) braceCount false escaped
        else brace_scan r (S i) braceCount inString escaped
  end.

(** [jsonText.replace(/```json|```|\n```/g, "")]: left to right, the
    alternatives tried in order at each position; [skip] counts the
    code units of a removed match still to pass over. *)
Fixpoint replace_fences_go (s : jstr) (skip : nat) : jstr :=
  match s with
  | [] => []
  | c :: r =>
      match skip with
      | S k => replace_fences_go r k
      | O =>
          if is_prefix (u "```json") s then replace_fences_go r 6
          else if is_prefix (u "```") s then replace_fences_go r 2
          else if is_prefix [10; 96; 96; 96]%N s then replace_fences_go r 3
          else c :: replace_fences_go r 0
      end
  end.

Definition replace_fences (s : jstr) : jstr := replace_fences_go s 0.

(** The candidate JSON text of [extractAndParseJSON], before the fence
    markers are removed. *)
Definition candidate_text (responseText : jstr) : jstr :=
  match code_block_match responseText with
  | Some group => group
  | None =>
      match index_of [123%N] responseText with
      | None => responseText
      | Some startIndex =>
          match brace_scan (drop startIndex responseText) startIndex 0 false false with
          | Some endIndex =>
              if Nat.ltb startIndex endIndex
              then take (endIndex - startIndex) (drop startIndex responseText)
              else responseText
          | None => responseText
          end
      end
  end.

Fixpoint decimal_digits (d : Decimal.uint) : jstr :=
  match d with
  | Decimal.Nil => []
  | Decimal.D0 r => 48%N :: decimal_digits r
  | Decimal.D1 r => 49%N :: decimal_digits r
  | Decimal.D2 r => 50%N :: decimal_digits r
  | Decimal.D3 r => 51%N :: decimal_digits r
  | Decimal.D4 r => 52%N :: decimal_digits r
  | Decimal.D5 r => 53%N :: decimal_digits r
  | Decimal.D6 r => 54%N :: decimal_digits r
  | Decimal.D7 r => 55%N :: decimal_digits r
  | Decimal.D8 r => 56%N :: decimal_digits r
  | Decimal.D9 r => 57%N :: decimal_digits r
  end.

(** An array index as a property key. *)
Definition index_key (n : nat) : jstr := decimal_digits (Nat.to_uint n).

Fixpoint indexed_entries (i : nat) (l : list jvalue) : list (jstr * jvalue) :=
  match l with
  | [] => []
  | v :: r => (index_key i, v) :: indexed_entries (S i) r
  end.

(** [typeof parsed !== "object" || parsed === null] rejects the value;
    otherwise [Object.entries(parsed)] (an array is an object whose keys
    are its indices).  JS lists integer-like keys first; the FileState
    built from the entries does not depend on their order since the keys
    are distinct. *)
Definition object_entries (v : jvalue) : option (list (jstr * jvalue)) :=
  match v with
  | JObj props => Some props
  | JArr l => Some (indexed_entries 0 l)
  | _ => None
  end.

Section Extraction.
#[local] Set Default Proof Using "Type".

(** [String(x)] of a number, given its JSON source text: the
    floating-point formatting of the engine, left abstract. *)
Variable number_to_string : jstr -> jstr.

(** [ToBoolean] of the number a JSON lexeme denotes (floating point,
    left abstract). *)
Variable number_truthy : jstr -> bool.

(** An own property [toString] of a parsed object: it is never
    callable, so converting the object to a primitive throws a
    TypeError. *)
Definition has_own_toString (props : list (jstr * jvalue)) : bool :=
  existsb (fun kv => bool_decide (kv.1 = u "toString")) props.

(** [String(value)]; an array is joined with [","], its [null] elements
    giving the empty string; [None] is a thrown TypeError. *)
Fixpoint js_to_string (v : jvalue) : option jstr :=
  match v with
  | JNull => Some (u "null")
  | JBool true => Some (u "true")
  | JBool false => Some (u "false")
  | JNum lex => Some (number_to_string lex)
  | JStr s => Some s
  | JArr l =>
      (fix join (l : list jvalue) : option jstr :=
         match l with
         | [] => Some []
         | x :: r =>
             match (match x with JNull => Some [] | _ => js_to_string x end),
                   (match r with [] => Some [] | _ :: _ =>
                      match join r with Some t => Some (44%N :: t) | None => None end
                    end) with
             | Some a, Some b => Some (a ++ b)
             | _, _ => None
             end
         end) l
  | JObj props => if has_own_toString props then None else Some (u "[object Object]")
  end.

(** The loop [files[key] = String(value)].  The right-hand side is
    evaluated first.  Assigning to the key ["__proto__"] of a plain
    object calls the prototype setter, which ignores a string: no own
    property is created. *)
Fixpoint build_files_go (files : filestate) (entries : list (jstr * jvalue))
    : option filestate :=
  match entries with
  | [] => Some files
  | (key, value) :: r =>
      match js_to_string value with
      | None => None
      | Some s =>
          build_files_go
            (if bool_decide (key = u "__proto__") then files else <[key := s]> files) r
      end
  end.

Definition build_files (entries : list (jstr * jvalue)) : option filestate :=
  build_files_go ∅ entries.

(** [extractAndParseJSON]; every failure is rethrown as "Failed to parse
    generated code: ...". *)
Definition extractAndParseJSON (responseText : jstr) : extract_error + filestate :=
  let jsonText := js_trim (replace_fences (candidate_text responseText)) in
  match JSON_parse jsonText with
  | None => inl Ex_syntax
  | Some parsed =>
      match object_entries parsed with
      | None => inl Ex_not_object
      | Some entries =>
          match build_files entries with
          | None => inl Ex_to_primitive
          | Some files => if bool_decide (files = ∅) then inl Ex_no_files else inr files
          end
      end
  end.

(** The ways the serialization of a FileState is handed to the
    extractor in the extraction round trip. *)
Inductive wrapping :=
  | W_bare
  | W_fenced (pre ws1 ws2 post : jstr)
  | W_prose (pre post : jstr).

Definition wrap (w : wrapping) (json : jstr) : jstr :=
  match w with
  | W_bare => json
  | W_fenced pre ws1 ws2 post => pre ++ u "```json" ++ ws1 ++ json ++ ws2 ++ u "```" ++ post
  | W_prose pre post => pre ++ json ++ post
  end.

(** The conditions on the surrounding text under which the round trip
    holds: the prose before a fence holds no [```json], the text around
    the serialization inside the fence is whitespace; bare prose holds no
    [```json] and, before the serialization, no [{]. *)
Definition wrapping_ok (w : wrapping) : Prop :=
  match w with
  | W_bare => True
  | W_fenced pre ws1 ws2 _ =>
      ~ includes (u "```json") pre /\ Forall (fun c => is_js_ws c = true) ws1 /\
      Forall (fun c => is_js_ws c = true) ws2
  | W_prose pre post =>
      ~ includes (u "```json") pre /\ ~ In 123%N pre /\ ~ includes (u "```json") post
  end.

(** ** The route [POST] *)

(** JS truthiness of a property value, [None] being [undefined]. *)
Definition truthy_val (v : option jvalue) : bool :=
  match v with
  | None | Some JNull => false
  | Some (JBool b) => b
  | Some (JNum lex) => number_truthy lex
  | Some (JStr s) => bool_decide (s <> [])
  | Some (JArr _) | Some (JObj _) => true
  end.

(** The value is the string [k]. *)
Definition is_jstr (v : option jvalue) (k : jstr) : bool :=
  match v with Some (JStr s) => bool_decide (s = k) | _ => false end.

Fixpoint assoc_lookup (k : jstr) (props : list (jstr * jvalue)) : option jvalue :=
  match props with
  | [] => None
  | (k', v) :: r => if bool_decide (k' = k) then Some v else assoc_lookup k r
  end.

(** [v[k]] on a parsed value, [None] being [undefined]; [inl] is the
    TypeError of a read on [null]. *)
Definition js_get (v : jvalue) (k : jstr) : err + option jvalue :=
  match v with
  | JNull => inl Err_type
  | JObj props => inr (assoc_lookup k props)
  | JArr l => inr (assoc_lookup k (indexed_entries 0 l))
  | JStr s => inr (assoc_lookup k (indexed_entries 0 (map (fun c => JStr [c]) s)))
  | JBool _ | JNum _ => inr None
  end.

(** [v[k]] where [v] may be [undefined]. *)
Definition js_get_opt (v : option jvalue) (k : jstr) : err + option jvalue :=
  match v with None => inl Err_type | Some w => js_get w k end.

(** [v?.[k]]. *)
Definition js_get_chain (v : option jvalue) (k : jstr) : err + option jvalue :=
  match v with None | Some JNull => inr None | Some w => js_get w k end.

(** [String.prototype.split] with a one-code-unit separator. *)
Fixpoint split_on (sep : N) (s : jstr) : list jstr :=
  match s with
  | [] => [[]]
  | c :: r =>
      if N.eqb c sep then [] :: split_on sep r
      else match split_on sep r with
           | x :: xs => (c :: x) :: xs
           | [] => [[c]]
           end
  end.

(** [parsed.type === "content_block_delta" && parsed.delta?.text]:
    [inr (Some t)] when the condition holds, with [t] the text. *)
Definition delta_text (parsed : jvalue) : err + option jvalue :=
  match js_get parsed (u "type") with
  | inl e => inl e
  | inr ty =>
      if is_jstr ty (u "content_block_delta") then
        match js_get parsed (u "delta") with
        | inl e => inl e
        | inr d =>
            match js_get_chain d (u "text") with
            | inl e => inl e
            | inr t => if truthy_val t then inr t else inr None
            end
        end
      else inr None
  end.

(** The data a [sendData] call writes on the event stream. *)
Inductive sse_event :=
  | Ev_status
  | Ev_progress (content : jvalue)
  | Ev_file (fileName content : jstr) (changeType : change_status)
  | Ev_complete (conversationId : jstr) (changedFiles : list FileChange)
      (fullFiles : filestate)
  | Ev_error (e : err).

(** What a run does, in order. *)
Inductive step :=
  | Step_send (ev : sse_event)           (* sendData *)
  | Step_retry (a : retry_action)        (* a fetch or a backoff sleep *)
  | Step_save (id : jstr) (ok : bool)    (* conversation.save() and its outcome *)
  | Step_delay (ms : nat)                (* the pause after a file event *)
  | Step_close.                          (* closeStream *)

Record turn := mkTurn {
  turn_prompt : option jstr;
  turn_fileChanges : list FileChange;
  turn_fullState : filestate
}.

Record conversation := mkConversation {
  cv_userId : jstr;
  cv_initialPrompt : option jstr;
  cv_uploadedFiles : list jstr;
  cv_turns : list turn;
  cv_currentFiles : filestate
}.

(** The [Conversation] collection, by [_id]. *)
Abbreviation store := (gmap jstr conversation).

(** The computations of the route: they read and write the store,
    append to the trace of steps, and return a value or throw. *)
Definition M (A : Type) : Type := store -> list step -> store * list step * (err + A).

Definition m_ret {A} (a : A) : M A := fun st tr => (st, tr, inr a).

Definition m_bind {A B} (m : M A) (f : A -> M B) : M B :=
  fun st tr =>
    match m st tr with
    | (st', tr', inr a) => f a st' tr'
    | (st', tr', inl e) => (st', tr', inl e)
    end.

Definition m_throw {A} (e : err) : M A := fun st tr => (st, tr, inl e).

Definition m_log (s : step) : M unit := fun st tr => (st, tr ++ [s], inr tt).

Definition m_catch {A} (m : M A) (h : err -> M A) : M A :=
  fun st tr =>
    match m st tr with
    | (st', tr', inl e) => h e st' tr'
    | r => r
    end.

Notation "x <-- m ;; k" := (m_bind m (fun x => k))
  (at level 100, m at next level, right associativity).
Notation "m ;; k" := (m_bind m (fun _ => k)) (at level 100, right associativity).

(** [await fetchWithRetry(...)]. *)
Definition fetch_upstream (fetch : nat -> fetch_result) : M upstream_response :=
  fun st tr =>
    let '(acts, res) := fetchWithRetry fetch in (st, tr ++ map Step_retry acts, res).

(** One line of a chunk; a SyntaxError or TypeError inside is caught and
    ignored. *)
Definition process_line (fullResponse line : jstr) : M jstr :=
  if is_prefix (u "data: ") line then
    let data := drop 6 line in
    if bool_decide (data = u "[DONE]") then m_ret fullResponse
    else
      match JSON_parse data with
      | None => m_ret fullResponse
      | Some parsed =>
          match delta_text parsed with
          | inr (Some t) =>
              match js_to_string t with
              | Some s =>
                  m_log (Step_send (Ev_progress t)) ;; m_ret (fullResponse ++ s)
              | None => m_ret fullResponse
              end
          | _ => m_ret fullResponse
          end
      end
  else m_ret fullResponse.

Fixpoint process_lines (fullResponse : jstr) (lines : list jstr) : M jstr :=
  match lines with
  | [] => m_ret fullResponse
  | line :: r => fr <-- process_line fullResponse line ;; process_lines fr r
  end.

(** The [while (true)] loop over the chunks, each split on ["\n"]. *)
Fixpoint read_chunks (fullResponse : jstr) (chunks : list jstr) : M jstr :=
  match chunks with
  | [] => m_ret fullResponse
  | chunk :: r =>
      fr <-- process_lines fullResponse (split_on 10 chunk) ;; read_chunks fr r
  end.

Definition extract (responseText : jstr) : M filestate :=
  match extractAndParseJSON responseText with
  | inl e => m_throw (Err_extract e)
  | inr files => m_ret files
  end.

(** The schema's [required] validators ([userId], [initialPrompt], the
    [prompt] of each turn): a string that is absent or empty is rejected.
    The entries of [uploadedFiles] are taken to pass their cast. *)
Definition doc_valid (c : conversation) : bool :=
  truthy (Some (cv_userId c)) && truthy (cv_initialPrompt c) &&
  forallb (fun t => truthy (turn_prompt t)) (cv_turns c).

(** [conversation.save()]: validation, then one write of the whole
    document: an insert for a new document (refused if the id is taken)
    or an update of an existing one (refused if it is gone).  [db_ok] is
    whether the database accepts the write. *)
Definition save (db_ok : bool) (id : jstr) (is_new : bool) (c : conversation) : M unit :=
  fun st tr =>
    if doc_valid c && db_ok &&
       (if is_new then bool_decide (st !! id = None) else bool_decide (is_Some (st !! id)))
    then (<[id := c]> st, tr ++ [Step_save id true], inr tt)
    else (st, tr ++ [Step_save id false], inl Err_save).

(** The answers of the world to a request. *)
Record env := mkEnv {
  env_connect_ok : bool;            (* connectMongo() resolves *)
  env_api_key : option jstr;        (* process.env.ANTHROPIC_API_KEY *)
  env_cast_id : jstr -> option jstr; (* the ObjectId a string casts to, as the
                                       key of the stored conversation: 24 hex
                                       digits in either case, or 12 bytes;
                                       None when the cast fails *)
  env_fetch : nat -> fetch_result;  (* the provider, at each attempt *)
  env_db_ok : bool;                 (* the database accepts writes *)
  env_new_id : jstr                 (* the _id of a new Conversation *)
}.

(** The request body, after the defaults of the destructuring. *)
Record request := mkRequest {
  rq_prompt : option jstr;
  rq_existingFiles : option filestate;
  rq_uploadedFiles : option (list jstr);
  rq_streaming : bool;
  rq_userId : jstr;
  rq_conversationId : option jstr;
  rq_isIterativeUpdate : bool
}.

(** From [previousFiles] to the [save] of the conversation; shared by
    the streaming and the non-streaming paths.  Returns the id, the full
    state and the changes. *)
Definition persist (E : env) (rq : request) (conversation : option (jstr * conversation))
    (newFiles : filestate) : M (jstr * filestate * list FileChange) :=
  let previousFiles :=
    match rq_existingFiles rq with
    | Some f => f
    | None => match conversation with Some (_, c) => cv_currentFiles c | None => ∅ end
    end in
  let fullFileState := newFiles ∪ previousFiles in
  let fileChanges := detectFileChanges previousFiles newFiles in
  match (if rq_isIterativeUpdate rq then conversation else None) with
  | Some (id, c) =>
      save (env_db_ok E) id false
        (mkConversation (cv_userId c) (cv_initialPrompt c) (cv_uploadedFiles c)
           (cv_turns c ++ [mkTurn (rq_prompt rq) fileChanges fullFileState])
           fullFileState) ;;
      m_ret (id, fullFileState, fileChanges)
  | None =>
      save (env_db_ok E) (env_new_id E) true
        (mkConversation (rq_userId rq) (rq_prompt rq)
           (match rq_uploadedFiles rq with Some l => l | None => [] end)
           [mkTurn (rq_prompt rq)
              (map (fun p => mkFileChange p St_new None) (object_keys newFiles))
              fullFileState]
           fullFileState) ;;
      m_ret (env_new_id E, fullFileState, fileChanges)
  end.

(** The loop sending one [file] event per generated file. *)
Fixpoint send_files (fileChanges : list FileChange) (entries : list (jstr * jstr)) : M unit :=
  match entries with
  | [] => m_ret tt
  | (fileName, content) :: r =>
      let changeType :=
        match find (fun c => bool_decide (fc_path c = fileName)) fileChanges with
        | Some c => fc_status c
        | None => St_new
        end in
      m_log (Step_send (Ev_file fileName content changeType)) ;;
      m_log (Step_delay 300) ;;
      send_files fileChanges r
  end.

(** The body of the [try] of the streaming task. *)
Definition stream_task (E : env) (rq : request) (conversation : option (jstr * conversation))
    : M unit :=
  m_log (Step_send Ev_status) ;;
  response <-- fetch_upstream (env_fetch E) ;;
  match resp_body response with
  | None => m_throw Err_empty_stream_body
  | Some chunks =>
      fullResponse <-- read_chunks [] chunks ;;
      (if resp_body_fails response then m_throw Err_network else m_ret tt) ;;
      newFiles <-- extract fullResponse ;;
      r <-- persist E rq conversation newFiles ;;
      let '(id, fullFileState, fileChanges) := r in
      send_files fileChanges (map_to_list newFiles) ;;
      m_log (Step_send (Ev_complete id fileChanges
                          (if rq_isIterativeUpdate rq then fullFileState else newFiles)))
  end.

(** The streaming task: [try], [catch] sending the error, [finally]
    closing the stream. *)
Definition stream_run (E : env) (rq : request) (conversation : option (jstr * conversation))
    : M unit :=
  m_catch (stream_task E rq conversation) (fun e => m_log (Step_send (Ev_error e))) ;;
  m_log Step_close.

(** [await response.json()]. *)
Definition response_json (response : upstream_response) : M jvalue :=
  if resp_body_fails response then m_throw Err_response_json
  else match JSON_parse (concat (match resp_body response with Some l => l | None => [] end)) with
       | Some v => m_ret v
       | None => m_throw Err_response_json
       end.

Definition m_lift {A} (r : err + A) : M A :=
  match r with inl e => m_throw e | inr a => m_ret a end.

(** The non-streaming path, after the checks; returns [newFiles], the
    full state, the changes and the conversation id. *)
Definition nonstream_task (E : env) (rq : request)
    (conversation : option (jstr * conversation))
    : M (filestate * filestate * list FileChange * jstr) :=
  response <-- fetch_upstream (env_fetch E) ;;
  data <-- response_json response ;;
  stop_reason <-- m_lift (js_get data (u "stop_reason")) ;;
  if is_jstr stop_reason (u "max_tokens") then m_throw Err_truncated
  else
    content <-- m_lift (js_get data (u "content")) ;;
    first <-- m_lift (js_get_opt content (u "0")) ;;
    responseText <-- m_lift (js_get_chain first (u "text")) ;;
    if negb (truthy_val responseText) then m_throw Err_no_content
    else
      match responseText with
      | Some (JStr text) =>
          newFiles <-- extract text ;;
          r <-- persist E rq conversation newFiles ;;
          let '(id, fullFileState, fileChanges) := r in
          m_ret (newFiles, fullFileState, fileChanges, id)
      | _ => m_throw Err_type   (* responseText.match is not a function *)
      end.

Inductive route_error :=
  | RE_missing_input     (* "Prompt or uploaded files required" *)
  | RE_missing_key       (* "Missing API key" *)
  | RE_not_found         (* "Conversation not found" *)
  | RE_thrown (e : err). (* the outer catch: the error's message *)

(** [!prompt && (!uploadedFiles || uploadedFiles.length === 0)]. *)
Definition missing_input (rq : request) : bool :=
  negb (truthy (rq_prompt rq)) &&
  match rq_uploadedFiles rq with None => true | Some l => bool_decide (l = []) end.

(** The HTTP response of [POST]. *)
Inductive response :=
  | R_error (status : Z) (e : route_error)
  | R_ok (files fullFiles : filestate) (changedFiles : list FileChange)
      (conversationId : jstr)
  | R_stream (trace : list step).

(** [POST]; the streaming task is run to its end. *)
Definition post (E : env) (st : store) (rq : request) : response * store :=
  if negb (env_connect_ok E) then (R_error 500 (RE_thrown Err_connect), st)
  else if missing_input rq then (R_error 400 RE_missing_input, st)
  else if negb (truthy (env_api_key E)) then (R_error 500 RE_missing_key, st)
  else
    let generate (conversation : option (jstr * conversation)) :=
      if rq_streaming rq then
        let '(st', tr, _) := stream_run E rq conversation st [] in (R_stream tr, st')
      else
        match nonstream_task E rq conversation st [] with
        | (st', _, inr (files, fullFiles, changes, id)) => (R_ok files fullFiles changes id, st')
        | (st', _, inl e) => (R_error 500 (RE_thrown e), st')
        end in
    if rq_isIterativeUpdate rq && truthy (rq_conversationId rq) then
      match rq_conversationId rq with
      | Some id =>
          match env_cast_id E id with
          | None => (R_error 500 (RE_thrown Err_find), st)
          | Some oid =>
              match st !! oid with
              | None => (R_error 404 RE_not_found, st)
              | Some c => generate (Some (oid, c))
              end
          end
      | None => generate None
      end
    else generate None.

(** A sequence of requests, each with the world's answers to it. *)
Fixpoint post_all (reqs : list (env * request)) (st : store) : store :=
  match reqs with
  | [] => st
  | (E, rq) :: r => post_all r (post E st rq).2
  end.

(** The events a trace writes on the stream, in order. *)
Definition sent (tr : list step) : list sse_event :=
  omap (fun s => match s with Step_send ev => Some ev | _ => None end) tr.

Definition is_terminal (ev : sse_event) : bool :=
  match ev with Ev_complete _ _ _ | Ev_error _ => true | _ => false end.

(** A step that sends no terminal event and writes nothing. *)
Definition quiet_step (s : step) : Prop :=
  match s with
  | Step_send ev => is_terminal ev = false
  | Step_save _ _ => False
  | _ => True
  end.

(** A computation that leaves the store alone and only appends quiet
    steps to the trace. *)
Definition quiet {A} (m : M A) : Prop :=
  forall st tr, exists ext r, m st tr = (st, tr ++ ext, r) /\ Forall quiet_step ext.

(** A stored conversation whose [currentFiles] is the [fullState] of its
    last turn. *)
Definition conv_consistent (c : conversation) : Prop :=
  match last (cv_turns c) with
  | Some t => cv_currentFiles c = turn_fullState t
  | None => False
  end.

Definition store_inv (st : store) : Prop := map_Forall (fun _ c => conv_consistent c) st.

(** [st'] is [st], or [st] with one conversation written whose
    [currentFiles] is the [fullState] of its last turn, that turn being
    the only one of a new conversation or appended to the stored turns. *)
Definition one_turn_write (st st' : store) : Prop :=
  st' = st \/
  exists id conv t,
    st' = <[id := conv]> st /\ last (cv_turns conv) = Some t /\
    cv_currentFiles conv = turn_fullState t /\
    ((st !! id = None /\ cv_turns conv = [t]) \/
     (exists c0, st !! id = Some c0 /\ cv_turns conv = cv_turns c0 ++ [t])).

(** ** The character-reveal scheduler ([MultiFileStreamingDisplay]) *)

(** [files[k]] on the [files] prop, an object given by its entries in
    [Object.keys] order. *)
Fixpoint prop_lookup (k : jstr) (files : list (jstr * jstr)) : option jstr :=
  match files with
  | [] => None
  | (k', v) :: r => if bool_decide (k' = k) then Some v else prop_lookup k r
  end.

Record display_state := mkDisplay {
  displayedFiles : filestate;
  currentFileIndex : nat;
  currentCharIndex : nat;
  isComplete : bool;
  hasNavigated : bool               (* hasNavigatedRef.current *)
}.

(** The state after the reset effect of a session. *)
Definition display_init : display_state := mkDisplay ∅ 0 0 false false.

(** What one run of the streaming effect does. *)
Inductive effect_result :=
  | Eff_none                             (* nothing; no new render *)
  | Eff_timer (name : jstr) (on_tick : display_state)
      (* a timer whose callback reveals in [name] and sets this state *)
  | Eff_update (s : display_state)       (* state set at once: a new render *)
  | Eff_complete (s : display_state).    (* the callback fired, state set *)

(** The body of the streaming [useEffect]. *)
Definition streaming_effect (files : list (jstr * jstr)) (s : display_state) : effect_result :=
  let fileNames := map fst files in
  if bool_decide (length fileNames = 0%nat) then Eff_none
  else
    let currentFileName :=
      match fileNames !! currentFileIndex s with Some n => n | None => u "undefined" end in
    let currentFileContent :=
      match prop_lookup currentFileName files with Some c => c | None => [] end in
    if Nat.ltb (currentCharIndex s) (length currentFileContent) then
      Eff_timer currentFileName (mkDisplay
        (<[currentFileName := take (currentCharIndex s + 1) currentFileContent]>
           (displayedFiles s))
        (currentFileIndex s) (currentCharIndex s + 1) (isComplete s) (hasNavigated s))
    else if Nat.ltb (currentFileIndex s) (length fileNames - 1) then
      Eff_update (mkDisplay (displayedFiles s) (currentFileIndex s + 1) 0
                    (isComplete s) (hasNavigated s))
    else if negb (isComplete s) && negb (hasNavigated s) then
      Eff_complete (mkDisplay (displayedFiles s) (currentFileIndex s) (currentCharIndex s)
                      true true)
    else Eff_none.

(** What a session shows: each timer tick, with the file it reveals in
    and the text of that file then displayed, and each call of
    [onAllFilesComplete]. *)
Inductive display_event :=
  | Tick (fileName shown : jstr)
  | Fire.

(** A session with fixed [files]: the effect runs after every render (its
    dependency [fileNames] is a new array at each render).  A render for
    another cause clears the pending timer and sets it again, which only
    delays its tick; [fuel] bounds the number of effect runs. *)
Fixpoint run_display (fuel : nat) (files : list (jstr * jstr)) (s : display_state)
    : list display_event :=
  match fuel with
  | O => []
  | S f =>
      match streaming_effect files s with
      | Eff_none => []
      | Eff_timer name s' =>
          Tick name (match displayedFiles s' !! name with Some t => t | None => [] end)
            :: run_display f files s'
      | Eff_update s' => run_display f files s'
      | Eff_complete s' => Fire :: run_display f files s'
      end
  end.

(** The ticks of a session as the spec describes them: file after file,
    one more character at each tick. *)
Definition reveal_file (kv : jstr * jstr) : list display_event :=
  map (fun k => Tick kv.1 (take (S k) kv.2)) (seq 0 (length kv.2)).

Definition total_length (files : list (jstr * jstr)) : nat :=
  sum_list (map (fun kv => length kv.2) files).

(** ** The stream consumers *)

(** The state [handleChatSubmit] (workspace page) updates from the
    events. *)
Record ws_state := mkWs {
  ws_streamedFiles : filestate;
  ws_generatedFilesList : list jstr;
  ws_changedFiles : list FileChange;
  ws_files : filestate
}.

(** One event, read back from its [data:] line.  An [error] event throws
    inside the [try] around the line and is only logged. *)
Definition ws_on_event (s : ws_state) (ev : sse_event) : ws_state :=
  match ev with
  | Ev_file fileName content changeType =>
      if truthy (Some fileName) && truthy (Some content) then
        mkWs (<[fileName := content]> (ws_streamedFiles s))
          (if bool_decide (fileName ∈ ws_generatedFilesList s) then ws_generatedFilesList s
           else ws_generatedFilesList s ++ [fileName])
          (if existsb (fun c => bool_decide (fc_path c = fileName)) (ws_changedFiles s)
           then ws_changedFiles s
           else ws_changedFiles s ++ [mkFileChange fileName changeType None])
          (ws_files s)
      else s
  | Ev_complete _ changedFiles fullFiles =>
      mkWs (ws_streamedFiles s) (ws_generatedFilesList s) changedFiles fullFiles
  | _ => s
  end.

Definition ws_run (s : ws_state) (evs : list sse_event) : ws_state :=
  fold_left ws_on_event evs s.

(** [handleStreamingGenerate] (generation page): the accumulated
    [generatedFiles], and what [complete] wrote to sessionStorage as
    ["generatedFiles"]. *)
Fixpoint gen_run (generatedFiles : filestate) (stored : option filestate)
    (evs : list sse_event) : filestate * option filestate :=
  match evs with
  | [] => (generatedFiles, stored)
  | Ev_file fileName content _ :: r =>
      if truthy (Some fileName) && truthy (Some content) then
        gen_run (<[fileName := content]> generatedFiles) stored r
      else gen_run generatedFiles stored r
  | Ev_complete _ _ _ :: r => gen_run generatedFiles (Some generatedFiles) r
  | _ :: r => gen_run generatedFiles stored r
  end.

(** An event other than [complete]. *)
Definition not_complete (ev : sse_event) : Prop :=
  match ev with Ev_complete _ _ _ => False | _ => True end.

(** ** Provider answers used in the examples *)

(** The line of a [content_block_delta] event carrying [text]. *)
Definition sse_text_line (text : jstr) : jstr :=
  u "data: " ++
  uj "{'type':'content_block_delta','index':0,'delta':{'type':'text_delta','text':" ++
  quote_json text ++ u "}}".

(** A streamed answer carrying [text] that ends normally. *)
Definition text_stream (text : jstr) : list jstr :=
  [sse_text_line text ++ [10; 10]%N ++
   uj "data: {'type':'message_delta','delta':{'stop_reason':'end_turn'},'usage':{'output_tokens':12}}" ++
   [10; 10]%N ++ uj "data: {'type':'message_stop'}" ++ [10; 10]%N].

(** A streamed answer carrying [text] that stops at the token limit. *)
Definition max_tokens_stream (text : jstr) : list jstr :=
  [sse_text_line text ++ [10; 10]%N ++
   uj "data: {'type':'message_delta','delta':{'stop_reason':'max_tokens'},'usage':{'output_tokens':8192}}" ++
   [10; 10]%N ++ uj "data: {'type':'message_stop'}" ++ [10; 10]%N].

(** A non-streamed answer carrying [text] that stops at the token limit. *)
Definition max_tokens_message (text : jstr) : list jstr :=
  [uj "{'content':[{'type':'text','text':" ++ quote_json text ++
   uj "}],'stop_reason':'max_tokens'}"].

(** A world where the database and the provider work, the provider
    answering [body]. *)
Definition env_answering (body : list jstr) : env :=
  mkEnv true (Some (u "key")) Some
    (fun _ => Fetch_response (mkResponse 200 (Some body) false)) true (u "id1").

(** A first generation request. *)
Definition generate_request (streaming : bool) : request :=
  mkRequest (Some (u "make a counter")) None None streaming (u "anonymous") None false.

(** ** Parts of [POST], named *)

(** The conversation [POST] works on: for an iterative update with a
    non-empty [conversationId], the stored conversation under the
    ObjectId that id casts to ([Conversation.findById]). *)
Definition looked_up (E : env) (st : store) (rq : request)
    : option (jstr * conversation) :=
  if rq_isIterativeUpdate rq && truthy (rq_conversationId rq) then
    match rq_conversationId rq with
    | Some id =>
        match env_cast_id E id with
        | Some oid => match st !! oid with Some c => Some (oid, c) | None => None end
        | None => None
        end
    | None => None
    end
  else None.

(** [existingFiles || conversation?.currentFiles || {}]. *)
Definition previous_files (rq : request) (conversation : option (jstr * conversation))
    : filestate :=
  match rq_existingFiles rq with
  | Some f => f
  | None => match conversation with Some (_, c) => cv_currentFiles c | None => ∅ end
  end.

(** The document an iterative update saves: the turn pushed on
    [conversationTurns], [currentFiles] set. *)
Definition appended_conversation (c : conversation) (rq : request)
    (fileChanges : list FileChange) (fullFileState : filestate) : conversation :=
  mkConversation (cv_userId c) (cv_initialPrompt c) (cv_uploadedFiles c)
    (cv_turns c ++ [mkTurn (rq_prompt rq) fileChanges fullFileState]) fullFileState.

(** The document [new Conversation({...})] of a first request. *)
Definition fresh_conversation (rq : request) (newFiles fullFileState : filestate)
    : conversation :=
  mkConversation (rq_userId rq) (rq_prompt rq)
    (match rq_uploadedFiles rq with Some l => l | None => [] end)
    [mkTurn (rq_prompt rq)
       (map (fun p => mkFileChange p St_new None) (object_keys newFiles))
       fullFileState]
    fullFileState.

(** The [file] event sent for the entry [(fileName, content)]:
    [changeInfo?.status || "new"]. *)
Definition file_event (fileChanges : list FileChange) (kv : jstr * jstr) : sse_event :=
  Ev_file kv.1 kv.2
    (match find (fun c => bool_decide (fc_path c = kv.1)) fileChanges with
     | Some c => fc_status c
     | None => St_new
     end).

(** ** The route [GET] *)

Inductive get_error :=
  | GE_userId_required   (* "userId is required" *)
  | GE_not_found         (* "Conversation not found" *)
  | GE_failed.           (* "Failed to retrieve conversations" *)

Inductive get_response :=
  | G_error (status : Z) (e : get_error)
  | G_conversation (id : jstr) (c : conversation)           (* { conversation } *)
  | G_conversations (cs : list (jstr * conversation)).      (* { conversations } *)

(** [GET], given the query parameters [userId] and [conversationId]
    ([None] when absent).  [sort_by_updatedAt] is the order the database
    gives to the result of [find] ([.sort({ updatedAt: -1 })]); reads do
    not fail once connected, save for the cast of a malformed id. *)
Definition get (E : env) (sort_by_updatedAt : list (jstr * conversation) -> list (jstr * conversation))
    (st : store) (userId conversationId : option jstr) : get_response :=
  if negb (env_connect_ok E) then G_error 500 GE_failed
  else
    match userId with
    | Some ((_ :: _) as uid) =>
        match conversationId with
        | Some ((_ :: _) as id) =>
            match env_cast_id E id with
            | None => G_error 500 GE_failed
            | Some oid =>
                match st !! oid with
                | Some c =>
                    if bool_decide (cv_userId c = uid) then G_conversation oid c
                    else G_error 404 GE_not_found
                | None => G_error 404 GE_not_found
                end
            end
        | _ =>
            G_conversations
              (sort_by_updatedAt (filter (fun ic => cv_userId ic.2 = uid) (map_to_list st)))
        end
    | _ => G_error 400 GE_userId_required
    end.

(** ** [connectMongo] *)

(** The module-level [cached]: whether [cached.conn] is set, and
    [cached.promise]: [None] for [null], [Some b] for the promise of
    [mongoose.connect], which resolves when [b]. *)
Record mongo_cache := mkCache {
  cache_conn : bool;
  cache_promise : option bool
}.

Definition cache_init : mongo_cache := mkCache false None.

(** One call; [outcome] is whether [mongoose.connect] resolves if it is
    called by this call.  Returns the cache after it, whether the call
    resolves, and whether it called [mongoose.connect].  A rejected
    promise stays cached and [conn] stays [null]. *)
Definition connectMongo (outcome : bool) (c : mongo_cache) : mongo_cache * bool * bool :=
  if cache_conn c then (c, true, false)
  else
    let '(p, called) :=
      match cache_promise c with Some p => (p, false) | None => (outcome, true) end in
    (mkCache p (Some p), p, called).

(** Successive calls in one server process: their outcomes and the
    number of calls of [mongoose.connect]. *)
Fixpoint connect_calls (outcomes : list bool) (c : mongo_cache) : list bool * nat :=
  match outcomes with
  | [] => ([], 0)
  | o :: r =>
      let '(c', ok, called) := connectMongo o c in
      let '(oks, n) := connect_calls r c' in
      (ok :: oks, (if called then 1 else 0) + n)
  end.

(** ** Reading the event stream on the workspace page *)

Definition cons_head (c : N) (l : list jstr) : list jstr :=
  match l with x :: xs => (c :: x) :: xs | [] => [[c]] end.

(** [s.split("\n\n")]. *)
Fixpoint split_blank (s : jstr) : list jstr :=
  match s with
  | [] => [[]]
  | c :: s' =>
      match s' with
      | [] => [[c]]
      | c2 :: r =>
          if N.eqb c 10 && N.eqb c2 10 then [] :: split_blank r
          else cons_head c (split_blank s')
      end
  end.

(** The loop of [handleChatSubmit]: each decoded chunk is appended to
    [buffer], which is split on blank lines; all pieces but the last are
    handed to the [for] loop, the last ([lines.pop() || ""]) is kept.
    Returns the lines handed to the [for] loop, in order. *)
Fixpoint ws_lines (buffer : jstr) (chunks : list jstr) : list jstr :=
  match chunks with
  | [] => []
  | chunk :: r =>
      let lines := split_blank (buffer ++ chunk) in
      removelast lines ++ ws_lines (default [] (last lines)) r
  end.

(** The text [sendData] writes for a sequence of frames
    (["data: " + JSON.stringify(data)]): each followed by ["\n\n"]. *)
Definition sse_text (frames : list jstr) : jstr :=
  concat (map (fun f => f ++ [10; 10]%N) frames).

(** ** [exportProjectAsZip] (workspace page) *)





(** ** Outcomes of [fetchWithRetry], named *)

(** A fetch that is not accepted: a network error or a status outside
    200-299. *)
Definition fetch_failed (f : fetch_result) : Prop :=
  match f with Fetch_network_error => True | Fetch_response r => resp_ok r = false end.

(** The attempt numbers of the fetches of a run, in order. *)
Definition attempts (acts : list retry_action) : list nat :=
  omap (fun a => match a with Act_fetch k => Some k | Act_sleep _ => None end) acts.

(** The error thrown after a failed fetch: the rejection itself, or
    "Status: n". *)
Definition attempt_error (f : fetch_result) (e : err) : Prop :=
  match f with
  | Fetch_network_error => e = Err_network
  | Fetch_response r => resp_ok r = false /\ e = Err_status (resp_status r)
  end.

(** Proof device for the round trip: the length of the run of backticks
    ending at the current position, [None] once a run reaches three. *)
Fixpoint bt_state (n : nat) (s : jstr) : option nat :=
  match s with
  | [] => Some n
  | c :: r =>
      if N.eqb c 96 then (if Nat.eqb n 2 then None else bt_state (S n) r)
      else bt_state 0 r
  end.


(** Every path and content of a FileState holds no run of three
    backticks. *)
Definition fence_free_members (l : list (jstr * jstr)) : Prop :=
  Forall (fun kv => bt_state 0 kv.1 <> None /\ bt_state 0 kv.2 <> None) l.

(** * Properties *)

(** ** Reconciler *)

Lemma set_of_list_aux_elem (seen l : list jstr) (x : jstr) :
  x ∈ set_of_list_aux seen l <-> x ∈ l /\ x ∉ seen.
Proof.
  revert seen; induction l as [|y l IH]; intros seen; simpl.
  - split; [intros H; inversion H | intros [H _]; inversion H].
  - case_bool_decide as Hy.
    + rewrite IH, elem_of_cons. split; [intros [H1 H2]; auto|].
      intros [[->|H1] H2]; [contradiction|auto].
    + rewrite elem_of_cons, IH, not_elem_of_cons, elem_of_cons. split.
      * intros [->|[H1 [H2 H3]]]; auto.
      * intros [[->|H1] H2]; [by left|].
        destruct (decide (x = y)) as [->|Hne]; [by left|right; auto].
Qed.

Lemma set_of_list_aux_nodup (seen l : list jstr) :
  NoDup (set_of_list_aux seen l).
Proof.
  revert seen; induction l as [|y l IH]; intros seen; simpl.
  - constructor.
  - case_bool_decide as Hy; [apply IH|].
    constructor; [|apply IH].
    rewrite set_of_list_aux_elem. intros [_ H]. apply H. by left.
Qed.

Lemma classify_path_path (A B : filestate) (p : jstr) (c : FileChange) :
  classify_path A B p = Some c -> fc_path c = p.
Proof.
  unfold classify_path.
  destruct (_ && _); [intros [= <-]; done|].
  destruct (_ && _); [intros [= <-]; done|].
  case_bool_decide; [intros [= <-]; done|discriminate].
Qed.

Lemma classify_path_some (A B : filestate) (p : jstr) :
  is_Some (classify_path A B p) <-> A !! p <> B !! p.
Proof.
  unfold classify_path, truthy.
  destruct (A !! p) as [[|a0 a]|], (B !! p) as [[|b0 b]|]; simpl;
    try case_bool_decide; split; intros Hx;
    try (eexists; reflexivity); try (destruct Hx; discriminate); congruence.
Qed.

Lemma push_changes_paths (A B : filestate) (l : list jstr) :
  map fc_path (push_changes A B l) =
  filter (fun p => A !! p <> B !! p) l.
Proof.
  induction l as [|p l IH]; simpl; [done|].
  rewrite filter_cons.
  destruct (classify_path A B p) as [c|] eqn:Hc.
  - simpl. rewrite (classify_path_path _ _ _ _ Hc), IH.
    destruct (decide (A !! p <> B !! p)) as [H|H]; [done|].
    exfalso. apply H, classify_path_some. rewrite Hc. eexists; done.
  - destruct (decide (A !! p <> B !! p)) as [H|H]; [|done].
    apply classify_path_some in H. rewrite Hc in H. by destruct H.
Qed.

Lemma object_keys_elem (m : filestate) (p : jstr) :
  p ∈ object_keys m <-> is_Some (m !! p).
Proof.
  unfold object_keys. rewrite list_elem_of_fmap. split.
  - intros [[k v] [-> Hin]]. apply elem_of_map_to_list in Hin. simpl. by eexists.
  - intros [v Hv]. exists (p, v). split; [done|]. by apply elem_of_map_to_list.
Qed.

(** C2: every path of the union of both key sets is classified at most
    once; a path with identical content in both maps is omitted, every
    other path of the union occurs (exactly once) in the result. *)
Theorem detectFileChanges_total (A B : filestate) :
  NoDup (map fc_path (detectFileChanges A B)) /\
  (forall p : jstr,
     p ∈ map fc_path (detectFileChanges A B) <->
     (is_Some (A !! p) \/ is_Some (B !! p)) /\ A !! p <> B !! p).
Proof.
  unfold detectFileChanges, set_of_list.
  rewrite push_changes_paths. split.
  - apply NoDup_filter, set_of_list_aux_nodup.
  - intros p. rewrite list_elem_of_filter, set_of_list_aux_elem, elem_of_app,
      !object_keys_elem. split.
    + intros [Hne [Hin _]]. done.
    + intros [Hin Hne]. split; [done|]. split; [done|]. apply not_elem_of_nil.
Qed.

(** C3 (evaluation): a path present only in [previous] with the empty
    content is classified [updated] (with previous content [""]), not
    [deleted]; a path present only in [next] with the empty content is
    classified [updated], not [new]. *)
Theorem detectFileChanges_empty_content :
  detectFileChanges {[u "/a.js" := []]} ∅ =
    [mkFileChange (u "/a.js") St_updated (Some [])] /\
  detectFileChanges ∅ {[u "/a.js" := []]} =
    [mkFileChange (u "/a.js") St_updated None].
Proof. split; vm_compute; reflexivity. Qed.

(** ** Retry *)

(** C4 (as amended): when every fetch answers 529, [fetchWithRetry]
    fetches three times, sleeps 1000 ms after the first attempt and
    2000 ms after the second, does not sleep after the third, and fails
    with "Status: 529". *)
Theorem fetchWithRetry_always_529 (fetch : nat -> fetch_result) :
  (forall n, exists r, fetch n = Fetch_response r /\ resp_status r = 529%Z) ->
  fetchWithRetry fetch =
    ([Act_fetch 1; Act_sleep 1000; Act_fetch 2; Act_sleep 2000; Act_fetch 3],
     inl (Err_status 529)).
Proof.
  intros Hf.
  destruct (Hf 1%nat) as [r1 [H1 S1]], (Hf 2%nat) as [r2 [H2 S2]],
    (Hf 3%nat) as [r3 [H3 S3]].
  unfold fetchWithRetry, fetchWithRetry_gen. simpl.
  rewrite H1, S1. simpl. rewrite H2, S2. simpl. rewrite H3, S3.
  unfold resp_ok. rewrite S3. simpl. reflexivity.
Qed.

(** ** Extraction round trip: code units and string literals *)

Ltac N_cases :=
  repeat match goal with
  | |- context [N.leb ?a ?b] => destruct (N.leb_spec a b)
  | |- context [N.ltb ?a ?b] => destruct (N.ltb_spec a b)
  | |- context [N.eqb ?a ?b] => destruct (N.eqb_spec a b)
  end.

Lemma hex_digit_facts (n : N) :
  N.eqb (hex_digit n) 34 = false /\ N.eqb (hex_digit n) 92 = false /\
  N.eqb (hex_digit n) 96 = false /\ N.ltb (hex_digit n) 32 = false.
Proof. unfold hex_digit. N_cases; repeat split; lia. Qed.

Lemma hex_value_digit (n : N) : (n < 16)%N -> hex_value (hex_digit n) = Some n.
Proof. intros H. unfold hex_value, hex_digit. N_cases; try lia; f_equal; lia. Qed.

Lemma hex_split (c : N) :
  (c < 65536)%N ->
  (4096 * (c / 4096 mod 16) + 256 * (c / 256 mod 16) + 16 * (c / 16 mod 16)
   + c mod 16)%N = c.
Proof.
  intros H.
  pose proof (N.div_mod c 16 ltac:(lia)).
  pose proof (N.div_mod (c / 16) 16 ltac:(lia)).
  pose proof (N.div_mod (c / 256) 16 ltac:(lia)).
  rewrite N.Div0.div_div in H1, H2.
  change (16 * 16)%N with 256%N in H1. change (256 * 16)%N with 4096%N in H2.
  assert (c / 4096 < 16)%N by (apply N.Div0.div_lt_upper_bound; lia).
  rewrite (N.mod_small (c / 4096)) by lia.
  set (x := (c / 4096)%N) in *. set (q2 := (c / 256)%N) in *.
  set (q1 := (c / 16)%N) in *. set (a := (q1 mod 16)%N) in *.
  set (b := (q2 mod 16)%N) in *. set (d := (c mod 16)%N) in *. lia.
Qed.

Lemma mod16_lt (x : N) : (x mod 16 < 16)%N.
Proof. apply N.mod_lt. lia. Qed.

Lemma parse_str_unicode_escape (c : N) (t : jstr) :
  (c < 65536)%N ->
  parse_str (unicode_escape c ++ t) =
  match parse_str t with Some (b, r) => Some (c :: b, r) | None => None end.
Proof.
  intros Hc. unfold unicode_escape. simpl.
  rewrite !hex_value_digit by apply mod16_lt.
  rewrite hex_split by exact Hc. destruct (parse_str t) as [[b r]|]; reflexivity.
Qed.

Lemma parse_str_quote_unit (c : N) (t : jstr) :
  parse_str (quote_unit c ++ t) =
  match parse_str t with Some (b, r) => Some (c :: b, r) | None => None end.
Proof.
  unfold quote_unit.
  destruct (N.eqb_spec c 8) as [->|H8]; [reflexivity|].
  destruct (N.eqb_spec c 9) as [->|H9]; [reflexivity|].
  destruct (N.eqb_spec c 10) as [->|H10]; [reflexivity|].
  destruct (N.eqb_spec c 12) as [->|H12]; [reflexivity|].
  destruct (N.eqb_spec c 13) as [->|H13]; [reflexivity|].
  destruct (N.eqb_spec c 34) as [->|H34]; [reflexivity|].
  destruct (N.eqb_spec c 92) as [->|H92]; [reflexivity|].
  destruct (N.ltb c 32 || is_high_surrogate c || is_low_surrogate c) eqn:Hu.
  - apply parse_str_unicode_escape.
    unfold is_high_surrogate, is_low_surrogate in Hu.
    revert Hu. N_cases; simpl; intros; try lia; discriminate.
  - simpl. apply orb_false_iff in Hu as [Hu _]. apply orb_false_iff in Hu as [Hu _].
    rewrite (proj2 (N.eqb_neq c 34) H34), (proj2 (N.eqb_neq c 92) H92), Hu.
    reflexivity.
Qed.

Lemma brace_scan_quote_unit (c : N) (t : jstr) (i : nat) (d : Z) :
  brace_scan (quote_unit c ++ t) i d true false =
  brace_scan t (length (quote_unit c) + i) d true false.
Proof.
  unfold quote_unit.
  destruct (N.eqb_spec c 8); [reflexivity|].
  destruct (N.eqb_spec c 9); [reflexivity|].
  destruct (N.eqb_spec c 10); [reflexivity|].
  destruct (N.eqb_spec c 12); [reflexivity|].
  destruct (N.eqb_spec c 13); [reflexivity|].
  destruct (N.eqb_spec c 34); [reflexivity|].
  destruct (N.eqb_spec c 92) as [|H92]; [reflexivity|].
  destruct (_ || _ || _).
  - unfold unicode_escape. simpl.
    repeat match goal with
    | |- context [N.eqb (hex_digit ?x) 92] =>
        destruct (hex_digit_facts x) as (_ & -> & _)
    | |- context [N.eqb (hex_digit ?x) 34] =>
        destruct (hex_digit_facts x) as (-> & _)
    end. reflexivity.
  - simpl. destruct (N.eqb_spec c 92); [contradiction|].
    destruct (N.eqb_spec c 34); [contradiction|]. reflexivity.
Qed.

Lemma bt_state_quote_unit (c : N) (t : jstr) (n : nat) :
  bt_state n (quote_unit c ++ t) = bt_state n (c :: t).
Proof.
  unfold quote_unit.
  destruct (N.eqb_spec c 8) as [->|]; [reflexivity|].
  destruct (N.eqb_spec c 9) as [->|]; [reflexivity|].
  destruct (N.eqb_spec c 10) as [->|]; [reflexivity|].
  destruct (N.eqb_spec c 12) as [->|]; [reflexivity|].
  destruct (N.eqb_spec c 13) as [->|]; [reflexivity|].
  destruct (N.eqb_spec c 34) as [->|]; [reflexivity|].
  destruct (N.eqb_spec c 92) as [->|]; [reflexivity|].
  destruct (N.ltb c 32 || is_high_surrogate c || is_low_surrogate c) eqn:Hu;
    [|reflexivity].
  assert (N.eqb c 96 = false).
  { unfold is_high_surrogate, is_low_surrogate in Hu.
    revert Hu. N_cases; simpl; intros; try lia; discriminate. }
  unfold unicode_escape. simpl. rewrite H.
  repeat match goal with
  | |- context [N.eqb (hex_digit ?x) 96] =>
      destruct (hex_digit_facts x) as (_ & _ & -> & _)
  end. reflexivity.
Qed.

(** Induction along [quote_json_body]: a surrogate pair, or one code
    unit through [quote_unit]. *)
Lemma quote_body_ind (P : jstr -> Prop) :
  P [] ->
  (forall c d r, is_high_surrogate c && is_low_surrogate d = true ->
     P r -> P (c :: d :: r)) ->
  (forall c r, quote_json_body (c :: r) = quote_unit c ++ quote_json_body r ->
     P r -> P (c :: r)) ->
  forall s, P s.
Proof.
  intros H0 H2 H1.
  assert (forall s, P s /\ forall c, P (c :: s)) as H.
  { induction s as [|d r [IHr IHc]].
    - split; [done|]. intros c. apply H1; [reflexivity|done].
    - split; [apply IHc|]. intros c.
      destruct (is_high_surrogate c && is_low_surrogate d) eqn:E.
      + apply H2; done.
      + apply H1; [|apply IHc]. simpl. rewrite E. reflexivity. }
  intros s. apply H.
Qed.

Lemma parse_str_quote_body (s r : jstr) :
  parse_str (quote_json_body s ++ 34%N :: r) = Some (s, r).
Proof.
  revert r. induction s as [|c d s Hcd IH|c s Heq IH] using quote_body_ind;
    intros r.
  - reflexivity.
  - simpl. rewrite Hcd. simpl.
    apply andb_true_iff in Hcd as [Hc Hd].
    unfold is_high_surrogate, is_low_surrogate in Hc, Hd. revert Hc Hd.
    N_cases; simpl; intros; try lia; try discriminate.
    rewrite IH. reflexivity.
  - rewrite Heq, <- app_assoc, parse_str_quote_unit, IH. reflexivity.
Qed.

Lemma brace_scan_quote_body (s r : jstr) (i : nat) (d : Z) :
  brace_scan (quote_json_body s ++ 34%N :: r) i d true false =
  brace_scan r (S (length (quote_json_body s) + i)) d false false.
Proof.
  revert r i. induction s as [|c e s Hce IH|c s Heq IH] using quote_body_ind;
    intros r i.
  - reflexivity.
  - simpl. rewrite Hce. simpl.
    apply andb_true_iff in Hce as [Hc He].
    unfold is_high_surrogate, is_low_surrogate in Hc, He. revert Hc He.
    N_cases; simpl; intros; try lia; try discriminate.
    rewrite IH. f_equal. lia.
  - rewrite Heq, <- app_assoc, brace_scan_quote_unit, IH, length_app. f_equal. lia.
Qed.

Lemma bt_state_quote_body (s : jstr) (n : nat) :
  bt_state n (quote_json_body s) = bt_state n s.
Proof.
  revert n. induction s as [|c e s Hce IH|c s Heq IH] using quote_body_ind;
    intros n.
  - reflexivity.
  - simpl. rewrite Hce.
    apply andb_true_iff in Hce as [Hc He].
    unfold is_high_surrogate, is_low_surrogate in Hc, He. revert Hc He.
    simpl. N_cases; simpl; intros; try lia; try discriminate; apply IH.
  - rewrite Heq, bt_state_quote_unit. simpl.
    destruct (N.eqb c 96); [destruct (Nat.eqb n 2)|]; auto.
Qed.

(** ** Extraction round trip: fences and searches *)

Lemma bt_state_app (a b : jstr) (n : nat) :
  bt_state n (a ++ b) =
  match bt_state n a with Some m => bt_state m b | None => None end.
Proof.
  revert n. induction a as [|c a IH]; intros n; [reflexivity|].
  simpl. destruct (N.eqb c 96); [destruct (Nat.eqb n 2)|]; auto.
Qed.

Lemma repeat_snoc_96 (n : nat) (r : jstr) :
  repeat 96%N n ++ 96%N :: r = repeat 96%N (S n) ++ r.
Proof. induction n as [|n IH]; simpl; [reflexivity|]. rewrite IH. reflexivity. Qed.

Lemma bt_state_none_infix (s : jstr) (n : nat) :
  bt_state n s = None -> includes (u "```") (repeat 96%N n ++ s).
Proof.
  revert n. induction s as [|c r IH]; intros n H; simpl in H; [discriminate|].
  destruct (N.eqb_spec c 96) as [->|Hc].
  - destruct (Nat.eqb_spec n 2) as [Hn2|Hn].
    + rewrite Hn2. exists [], r. reflexivity.
    + rewrite repeat_snoc_96. apply IH, H.
  - destruct (IH 0%nat H) as [k1 [k2 Hk]]. simpl in Hk. subst r.
    exists (repeat 96%N n ++ c :: k1), k2. rewrite <- app_assoc. reflexivity.
Qed.

Lemma no_fence_bt_state (s : jstr) :
  ~ includes (u "```") s -> bt_state 0 s <> None.
Proof. intros H Hn. apply H, (bt_state_none_infix s 0 Hn). Qed.

Lemma no_bt_bt_state (x : jstr) (n : nat) :
  ~ In 96%N x -> bt_state n x <> None.
Proof.
  revert n. induction x as [|c x IH]; intros n H; simpl; [discriminate|].
  destruct (N.eqb_spec c 96) as [->|]; [exfalso; apply H; left; reflexivity|].
  apply IH. intros Hi. apply H. right. exact Hi.
Qed.

Lemma no_bt_last (x : jstr) : ~ In 96%N x -> last x <> Some 96%N.
Proof. intros H Hl. apply H, list_elem_of_In, last_Some_elem_of, Hl. Qed.

Lemma bt_state_fence3 (n : nat) (r : jstr) :
  (n <= 2)%nat -> bt_state n (96 :: 96 :: 96 :: r)%N = None.
Proof. intros Hn. destruct n as [|[|[|n]]]; simpl; reflexivity || lia. Qed.

Lemma is_prefix_trans (a b c : jstr) :
  is_prefix a b = true -> is_prefix b c = true -> is_prefix a c = true.
Proof.
  revert b c. induction a as [|x a IH]; intros b c Hab Hbc; [reflexivity|].
  destruct b as [|y b]; [discriminate|]. destruct c as [|z c]; [discriminate|].
  simpl in *. apply andb_true_iff in Hab as [Hxy Hab].
  apply andb_true_iff in Hbc as [Hyz Hbc].
  apply N.eqb_eq in Hxy, Hyz. subst. rewrite N.eqb_refl. simpl. eauto.
Qed.

Lemma is_prefix_fence (p s : jstr) :
  is_prefix (u "```") p = true -> is_prefix p s = true ->
  exists r, s = (96 :: 96 :: 96 :: r)%N.
Proof.
  intros Hp Hs. pose proof (is_prefix_trans _ _ _ Hp Hs) as H.
  change (u "```") with [96; 96; 96]%N in H.
  destruct s as [|a [|b [|c r]]]; cbn [is_prefix] in H; try discriminate;
    rewrite ?andb_true_iff, ?N.eqb_eq in H; try (decompose [and] H; discriminate).
  destruct H as (? & ? & ? & _). subst. exists r. reflexivity.
Qed.

(** A search for a pattern starting with a fence passes over a segment
    holding no fence and not ending in a backtick. *)
Lemma index_of_from_skip (pat x y : jstr) (i n : nat) :
  is_prefix (u "```") pat = true -> (n <= 2)%nat -> bt_state n x <> None ->
  last x <> Some 96%N ->
  index_of_from pat (x ++ y) i = index_of_from pat y (length x + i).
Proof.
  intros Hp. revert i n. induction x as [|c x IH]; intros i n Hn Hb Hl;
    [reflexivity|].
  simpl app. simpl index_of_from.
  assert (is_prefix pat (c :: x ++ y) = false) as ->.
  { destruct (is_prefix pat (c :: x ++ y)) eqn:E; [|reflexivity].
    exfalso. destruct (is_prefix_fence _ _ Hp E) as [r Hr].
    destruct x as [|c1 [|c2 x]]; simpl in Hr; inversion Hr; subst.
    - apply Hl. reflexivity.
    - apply Hl. reflexivity.
    - apply Hb, bt_state_fence3, Hn. }
  simpl in Hb. rewrite (IH (S i) (if N.eqb c 96 then S n else 0)).
  - f_equal. simpl. lia.
  - destruct (N.eqb c 96); [|lia].
    destruct (Nat.eqb_spec n 2); [congruence|lia].
  - destruct (N.eqb c 96); [destruct (Nat.eqb n 2)|]; congruence.
  - destruct x; [discriminate|]. rewrite last_cons_cons in Hl. exact Hl.
Qed.

Lemma index_of_from_nil (pat : jstr) (i : nat) :
  is_prefix (u "```") pat = true -> index_of_from pat [] i = None.
Proof. destruct pat; simpl; [discriminate|reflexivity]. Qed.

Lemma index_of_from_char_skip (c : N) (x y : jstr) (i : nat) :
  ~ In c x -> index_of_from [c] (x ++ y) i = index_of_from [c] y (length x + i).
Proof.
  revert i. induction x as [|a x IH]; intros i H; [reflexivity|].
  simpl. destruct (N.eqb_spec c a) as [->|]; [exfalso; apply H; left; reflexivity|].
  simpl. rewrite IH by (intros Hi; apply H; right; exact Hi). f_equal. lia.
Qed.

Lemma replace_fences_id (s : jstr) (n : nat) :
  (n <= 2)%nat -> bt_state n s <> None -> replace_fences_go s 0 = s.
Proof.
  revert n. induction s as [|c r IH]; intros n Hn Hb; [reflexivity|].
  assert (forall p, is_prefix (u "```") p = true -> is_prefix p (c :: r) = false)
    as Hp.
  { intros p Hp. destruct (is_prefix p (c :: r)) eqn:E; [|reflexivity].
    destruct (is_prefix_fence _ _ Hp E) as [t Ht]. rewrite Ht in Hb.
    rewrite bt_state_fence3 in Hb by exact Hn. congruence. }
  cbn [replace_fences_go].
  rewrite (Hp (u "```json")), (Hp (u "```")) by reflexivity.
  assert (is_prefix [10; 96; 96; 96]%N (c :: r) = false) as ->.
  { destruct (is_prefix [10; 96; 96; 96]%N (c :: r)) eqn:E; [|reflexivity].
    destruct r as [|a [|b [|d r]]]; cbn [is_prefix] in E;
      rewrite ?andb_true_iff, ?N.eqb_eq in E; try (decompose [and] E; discriminate).
    destruct E as (? & ? & ? & ? & _). subst. exfalso. apply Hb. reflexivity. }
  simpl in Hb. f_equal. apply (IH (if N.eqb c 96 then S n else 0)).
  - destruct (N.eqb c 96); [|lia].
    destruct (Nat.eqb_spec n 2); [congruence|lia].
  - destruct (N.eqb c 96); [destruct (Nat.eqb n 2)|]; congruence.
Qed.

(** ** Extraction round trip: the serialization *)

Lemma member_text_app (kv : jstr * jstr) (t : jstr) :
  member_text kv ++ t =
  (34 :: quote_json_body kv.1 ++ 34 :: 58 :: 34 :: quote_json_body kv.2 ++ 34 :: t)%N.
Proof.
  unfold member_text, quote_json. simpl. rewrite <- !app_assoc. simpl.
  rewrite <- !app_assoc. reflexivity.
Qed.

Lemma members_text_one (kv : jstr * jstr) : members_text [kv] = member_text kv.
Proof. cbn [members_text]. apply app_nil_r. Qed.

Lemma members_text_cons2 (kv kv' : jstr * jstr) (r : list (jstr * jstr)) :
  members_text (kv :: kv' :: r) = member_text kv ++ 44%N :: members_text (kv' :: r).
Proof. reflexivity. Qed.

Lemma stringify_app (l : list (jstr * jstr)) (t : jstr) :
  JSON_stringify_files l ++ t = (123 :: members_text l ++ 125 :: t)%N.
Proof. unfold JSON_stringify_files. simpl. rewrite <- app_assoc. reflexivity. Qed.

Lemma stringify_snoc (l : list (jstr * jstr)) :
  JSON_stringify_files l = (123%N :: members_text l) ++ [125%N].
Proof. reflexivity. Qed.

Lemma stringify_last (l : list (jstr * jstr)) :
  last (JSON_stringify_files l) = Some 125%N.
Proof. rewrite stringify_snoc. apply last_snoc. Qed.

Lemma bt_state_member (kv : jstr * jstr) (t : jstr) (n : nat) :
  bt_state 0 kv.1 <> None -> bt_state 0 kv.2 <> None ->
  bt_state n (member_text kv ++ t) = bt_state 0 t.
Proof.
  intros Hk Hv. rewrite member_text_app. simpl.
  rewrite bt_state_app, bt_state_quote_body.
  destruct (bt_state 0 kv.1) as [m|]; [|congruence]. simpl.
  rewrite bt_state_app, bt_state_quote_body.
  destruct (bt_state 0 kv.2) as [m'|]; [|congruence]. reflexivity.
Qed.

Lemma bt_state_members (l : list (jstr * jstr)) (t : jstr) (n : nat) :
  fence_free_members l -> bt_state n (members_text l ++ 125%N :: t) = bt_state 0 t.
Proof.
  revert n. induction l as [|kv r IH]; intros n Hl; [reflexivity|].
  inversion Hl as [|? ? [Hk Hv] Hr]; subst.
  destruct r as [|kv' r].
  - rewrite members_text_one, bt_state_member by assumption. reflexivity.
  - rewrite members_text_cons2, <- app_assoc, bt_state_member by assumption.
    exact (IH 0%nat Hr).
Qed.

Lemma bt_state_stringify (l : list (jstr * jstr)) (t : jstr) (n : nat) :
  fence_free_members l -> bt_state n (JSON_stringify_files l ++ t) = bt_state 0 t.
Proof. intros Hl. rewrite stringify_app. simpl. apply bt_state_members, Hl. Qed.

Lemma bt_state_stringify_some (l : list (jstr * jstr)) (n : nat) :
  fence_free_members l -> bt_state n (JSON_stringify_files l) = Some 0%nat.
Proof.
  intros Hl. rewrite <- (app_nil_r (JSON_stringify_files l)).
  apply bt_state_stringify, Hl.
Qed.

Lemma brace_scan_member (kv : jstr * jstr) (t : jstr) (i : nat) (d : Z) :
  brace_scan (member_text kv ++ t) i d false false =
  brace_scan t (length (member_text kv) + i) d false false.
Proof.
  rewrite member_text_app. simpl. rewrite brace_scan_quote_body. simpl.
  rewrite brace_scan_quote_body. f_equal.
  unfold member_text, quote_json. rewrite !length_app. simpl. rewrite length_app. simpl. lia.
Qed.

Lemma brace_scan_members (l : list (jstr * jstr)) (t : jstr) (i : nat) :
  brace_scan (members_text l ++ 125%N :: t) i 1 false false =
  Some (S (length (members_text l) + i)).
Proof.
  revert i. induction l as [|kv r IH]; intros i; [reflexivity|].
  destruct r as [|kv' r].
  - rewrite members_text_one, brace_scan_member. reflexivity.
  - rewrite members_text_cons2, <- app_assoc, brace_scan_member.
    change ((44%N :: members_text (kv' :: r)) ++ 125%N :: t)
      with (44%N :: (members_text (kv' :: r) ++ 125%N :: t)).
    cbn [brace_scan N.eqb]. rewrite IH, length_app. simpl. f_equal. lia.
Qed.

Lemma brace_scan_stringify (l : list (jstr * jstr)) (t : jstr) (i : nat) :
  brace_scan (JSON_stringify_files l ++ t) i 0 false false =
  Some (length (JSON_stringify_files l) + i).
Proof.
  rewrite stringify_app. simpl. rewrite brace_scan_members.
  unfold JSON_stringify_files. rewrite !length_app. simpl. f_equal. lia.
Qed.

(** ** Extraction round trip: parsing, trimming, building the FileState *)

Lemma obj_set_fresh (acc : list (jstr * jvalue)) (k : jstr) (v : jvalue) :
  k ∉ acc.*1 -> obj_set acc k v = acc ++ [(k, v)].
Proof.
  induction acc as [|[k' v'] acc IH]; intros Hk; [reflexivity|].
  simpl in Hk. apply not_elem_of_cons in Hk as [Hk' Hk]. simpl.
  rewrite bool_decide_false by congruence. rewrite IH by exact Hk. reflexivity.
Qed.

Lemma parse_value_string (m : nat) (v t : jstr) :
  parse_value (S m) (34 :: quote_json_body v ++ 34 :: t)%N = Some (JStr v, t).
Proof. simpl. rewrite parse_str_quote_body. reflexivity. Qed.

Lemma parse_value_obj (f : nat) (y : jstr) :
  parse_value (S f) (123 :: 34 :: y)%N =
  match parse_members (parse_value f) (S (length (34%N :: y))) [] (34%N :: y) with
  | Some (props, rest) => Some (JObj props, rest)
  | None => None
  end.
Proof. reflexivity. Qed.

Lemma member_text_length (kv : jstr * jstr) : (1 <= length (member_text kv))%nat.
Proof. unfold member_text, quote_json. rewrite !length_app. simpl. lia. Qed.

Lemma members_text_length (l : list (jstr * jstr)) :
  (length l <= length (members_text l))%nat.
Proof.
  induction l as [|kv r IH]; [simpl; lia|].
  pose proof (member_text_length kv). destruct r as [|kv' r].
  - rewrite members_text_one. simpl. lia.
  - rewrite members_text_cons2, length_app. simpl in *. lia.
Qed.

Lemma parse_members_text (pv : jstr -> option (jvalue * jstr)) :
  (forall v t, pv (34 :: quote_json_body v ++ 34 :: t)%N = Some (JStr v, t)) ->
  forall l acc n t, l <> [] -> NoDup (acc.*1 ++ l.*1) -> (length l <= n)%nat ->
  parse_members pv n acc (members_text l ++ 125%N :: t) =
  Some (acc ++ map (fun kv => (kv.1, JStr kv.2)) l, t).
Proof.
  intros Hpv. induction l as [|[k v] r IH]; intros acc n t Hne Hnd Hn;
    [congruence|].
  destruct n as [|n]; [simpl in Hn; lia|].
  assert (k ∉ acc.*1) as Hk.
  { intros Hin. apply NoDup_app in Hnd as (_ & Hd & _).
    apply (Hd k Hin). simpl. left. }
  destruct r as [|kv' r].
  - rewrite members_text_one, member_text_app. simpl.
    rewrite parse_str_quote_body. simpl. rewrite Hpv. simpl.
    rewrite obj_set_fresh by exact Hk. reflexivity.
  - rewrite members_text_cons2, <- app_assoc, member_text_app.
    remember (members_text (kv' :: r)) as M eqn:HM. simpl.
    rewrite parse_str_quote_body. simpl. rewrite Hpv. simpl.
    rewrite obj_set_fresh by exact Hk. subst M. rewrite IH.
    + rewrite <- app_assoc. reflexivity.
    + discriminate.
    + rewrite fmap_app, <- app_assoc. exact Hnd.
    + simpl in *. lia.
Qed.

Lemma JSON_parse_stringify (l : list (jstr * jstr)) :
  NoDup l.*1 ->
  JSON_parse (JSON_stringify_files l) = Some (JObj (map (fun kv => (kv.1, JStr kv.2)) l)).
Proof.
  intros Hnd. destruct l as [|kv r]; [reflexivity|].
  unfold JSON_parse.
  change (JSON_stringify_files (kv :: r))
    with (123%N :: (members_text (kv :: r) ++ [125%N])).
  assert (exists y, members_text (kv :: r) ++ [125%N] = 34%N :: y) as [y Hy].
  { destruct r as [|kv' r];
      [rewrite members_text_one|rewrite members_text_cons2, <- app_assoc];
      rewrite member_text_app; eexists; reflexivity. }
  pose proof (members_text_length (kv :: r)) as Hlen.
  rewrite Hy, parse_value_obj, <- Hy.
  assert (forall v t,
    parse_value (length (123%N :: members_text (kv :: r) ++ [125%N]))
      (34 :: quote_json_body v ++ 34 :: t)%N = Some (JStr v, t)) as Hpv
    by (intros; apply parse_value_string).
  rewrite (parse_members_text _ Hpv).
  - reflexivity.
  - discriminate.
  - exact Hnd.
  - rewrite length_app. lia.
Qed.

Lemma drop_js_ws_app (w t : jstr) :
  Forall (fun c => is_js_ws c = true) w -> drop_js_ws (w ++ t) = drop_js_ws t.
Proof. induction 1 as [|c w Hc _ IH]; [reflexivity|]. simpl. rewrite Hc. exact IH. Qed.

Lemma strip_trailing_stringify (l : list (jstr * jstr)) (ws : jstr) :
  Forall (fun c => is_js_ws c = true) ws ->
  strip_trailing_js_ws (JSON_stringify_files l ++ ws) = JSON_stringify_files l.
Proof.
  intros Hws. unfold strip_trailing_js_ws.
  rewrite rev_app_distr, drop_js_ws_app by (apply Forall_rev, Hws).
  rewrite stringify_snoc, rev_unit.
  change (drop_js_ws (125%N :: rev (123%N :: members_text l)))
    with (125%N :: rev (123%N :: members_text l)).
  rewrite <- rev_unit, rev_involutive. reflexivity.
Qed.

Lemma js_trim_stringify (l : list (jstr * jstr)) :
  js_trim (JSON_stringify_files l) = JSON_stringify_files l.
Proof.
  unfold js_trim.
  change (drop_js_ws (JSON_stringify_files l)) with (JSON_stringify_files l).
  rewrite <- (app_nil_r (JSON_stringify_files l)) at 1.
  apply strip_trailing_stringify. constructor.
Qed.

Lemma build_files_strings (l : list (jstr * jstr)) :
  NoDup l.*1 -> Forall (fun kv => kv.1 <> u "__proto__") l ->
  build_files (map (fun kv => (kv.1, JStr kv.2)) l) = Some (list_to_map l).
Proof.
  intros Hnd Hp. unfold build_files.
  rewrite <- (map_union_empty (list_to_map l : filestate)).
  generalize (∅ : filestate) as m.
  induction l as [|[k v] r IH]; intros m; simpl.
  - rewrite map_empty_union. reflexivity.
  - inversion Hp as [|? ? Hk Hr]; subst. simpl in Hnd.
    apply NoDup_cons in Hnd as [Hnin Hnd].
    rewrite bool_decide_false by exact Hk. rewrite IH by assumption.
    rewrite <- insert_union_r by (apply not_elem_of_list_to_map_1, Hnin).
    rewrite insert_union_l. reflexivity.
Qed.

(** ** Extraction round trip: the candidate text *)

Lemma is_prefix_app (p t : jstr) : is_prefix p (p ++ t) = true.
Proof. induction p as [|c p IH]; simpl; [reflexivity|]. rewrite N.eqb_refl. exact IH. Qed.

Lemma index_of_from_hit (p t : jstr) (i : nat) :
  p <> [] -> index_of_from p (p ++ t) i = Some i.
Proof.
  destruct p as [|c p]; [congruence|]. intros _. simpl.
  rewrite N.eqb_refl, is_prefix_app. reflexivity.
Qed.

Lemma drop_js_ws_stringify (l : list (jstr * jstr)) (t : jstr) :
  drop_js_ws (JSON_stringify_files l ++ t) = JSON_stringify_files l ++ t.
Proof. rewrite stringify_app. reflexivity. Qed.

Lemma stringify_length (l : list (jstr * jstr)) :
  (0 < length (JSON_stringify_files l))%nat.
Proof. rewrite stringify_snoc, length_app. simpl. lia. Qed.

Lemma ws_no_bt (ws : jstr) :
  Forall (fun c => is_js_ws c = true) ws -> ~ In 96%N ws.
Proof.
  intros Hws Hin. rewrite Forall_forall in Hws.
  specialize (Hws 96%N (proj2 (list_elem_of_In _ _) Hin)). discriminate.
Qed.

Lemma code_block_match_skip (l : list (jstr * jstr)) (x y : jstr) (pat : jstr) (i : nat) :
  fence_free_members l -> is_prefix (u "```") pat = true ->
  index_of_from pat (JSON_stringify_files l ++ y) i =
  index_of_from pat y (length (JSON_stringify_files l) + i).
Proof.
  intros Hl Hp. apply (index_of_from_skip _ _ _ _ 0); [exact Hp|lia| |].
  - rewrite bt_state_stringify_some by exact Hl. discriminate.
  - rewrite stringify_last. discriminate.
Qed.

Lemma candidate_bare (l : list (jstr * jstr)) :
  fence_free_members l ->
  candidate_text (JSON_stringify_files l) = JSON_stringify_files l.
Proof.
  intros Hl. unfold candidate_text, code_block_match, index_of.
  rewrite <- (app_nil_r (JSON_stringify_files l)) at 1.
  rewrite (code_block_match_skip l [] []) by (exact Hl || reflexivity).
  rewrite index_of_from_nil by reflexivity.
  replace (index_of_from [123%N] (JSON_stringify_files l) 0) with (Some 0%nat)
    by (rewrite stringify_snoc; reflexivity).
  change (drop 0 (JSON_stringify_files l)) with (JSON_stringify_files l).
  pose proof (brace_scan_stringify l [] 0) as Hb. rewrite app_nil_r in Hb.
  rewrite Hb. pose proof (stringify_length l).
  destruct (Nat.ltb_spec 0 (length (JSON_stringify_files l) + 0)); [|lia].
  apply take_ge. lia.
Qed.

Lemma is_prefix_inv (p s : jstr) : is_prefix p s = true -> exists r, s = p ++ r.
Proof.
  revert s. induction p as [|c p IH]; intros s H; [exists s; reflexivity|].
  destruct s as [|d s]; [discriminate|]. simpl in H.
  apply andb_true_iff in H as [Hc H]. apply N.eqb_eq in Hc as ->.
  destruct (IH s H) as [r ->]. exists r. reflexivity.
Qed.

(** A search passes over a segment where no match starts. *)
Lemma index_of_from_pass (pat x y : jstr) (i : nat) :
  (forall x1 x2, x = x1 ++ x2 -> x2 <> [] -> is_prefix pat (x2 ++ y) = false) ->
  index_of_from pat (x ++ y) i = index_of_from pat y (length x + i).
Proof.
  revert i. induction x as [|c x IH]; intros i H; [reflexivity|].
  cbn [app index_of_from].
  assert (is_prefix pat (c :: x ++ y) = false) as ->
    by exact (H [] (c :: x) eq_refl ltac:(discriminate)).
  rewrite IH; [f_equal; simpl; lia|].
  intros x1 x2 -> Hx2. exact (H (c :: x1) x2 eq_refl Hx2).
Qed.

(** No [```json] straddles the end of a text holding none and the start
    of a text that begins with [```json] or with [{]. *)
Lemma json_fence_pass (x y : jstr) (i : nat) :
  ~ includes (u "```json") x ->
  is_prefix (u "```json") y = true \/ head y = Some 123%N ->
  index_of_from (u "```json") (x ++ y) i = index_of_from (u "```json") y (length x + i).
Proof.
  intros Hx Hy. apply index_of_from_pass. intros x1 x2 -> Hx2.
  destruct (is_prefix (u "```json") (x2 ++ y)) eqn:E; [exfalso|reflexivity].
  destruct (is_prefix_inv _ _ E) as [r Hr].
  destruct (app_eq_inv _ _ _ _ Hr) as [(k & Hk & _)|(k & Hk & Hyk)].
  - apply Hx. exists x1, k. rewrite Hk. reflexivity.
  - subst y. change (u "```json") with [96; 96; 96; 106; 115; 111; 110]%N in Hk, Hy.
    destruct x2 as [|a1 [|a2 [|a3 [|a4 [|a5 [|a6 [|a7 x2]]]]]]]; [congruence| | | | | | |];
      injection Hk; intros; subst; try (destruct Hy as [Hy|Hy]; simpl in Hy; discriminate).
    match goal with H : [] = _ ++ _ |- _ => symmetry in H; apply app_eq_nil in H as [-> ->] end.
    apply Hx. exists x1, [].
    rewrite app_nil_r. reflexivity.
Qed.

Lemma index_of_from_absent (pat s : jstr) (i : nat) :
  pat <> [] -> ~ includes pat s -> index_of_from pat s i = None.
Proof.
  intros Hp. revert i. induction s as [|c s IH]; intros i Hs; cbn [index_of_from].
  - destruct pat; [congruence|reflexivity].
  - destruct (is_prefix pat (c :: s)) eqn:E.
    + exfalso. destruct (is_prefix_inv _ _ E) as [r Hr]. apply Hs. exists [], r. exact Hr.
    + apply IH. intros (k1 & k2 & ->). apply Hs. exists (c :: k1), k2. reflexivity.
Qed.

Lemma index_of_from_found (pat k1 k2 : jstr) (i : nat) :
  index_of_from pat (k1 ++ pat ++ k2) i <> None.
Proof.
  revert i. induction k1 as [|c k1 IH]; intros i.
  - pose proof (is_prefix_app pat k2) as H. simpl.
    destruct (pat ++ k2); cbn [index_of_from]; rewrite H; discriminate.
  - cbn [app index_of_from].
    destruct (is_prefix pat (c :: k1 ++ pat ++ k2)); [discriminate|apply IH].
Qed.

(** [s.includes(pat)] is false when [s.indexOf(pat)] is [-1]. *)
Lemma not_includes_of_index (pat s : jstr) : index_of pat s = None -> ~ includes pat s.
Proof. intros H (k1 & k2 & ->). exact (index_of_from_found pat k1 k2 0 H). Qed.

Lemma candidate_fenced (l : list (jstr * jstr)) (pre ws1 ws2 post : jstr) :
  fence_free_members l -> ~ includes (u "```json") pre ->
  Forall (fun c => is_js_ws c = true) ws1 -> Forall (fun c => is_js_ws c = true) ws2 ->
  candidate_text (pre ++ u "```json" ++ ws1 ++ JSON_stringify_files l ++ ws2 ++
                  u "```" ++ post) = JSON_stringify_files l.
Proof.
  intros Hl Hpre Hws1 Hws2. unfold candidate_text, code_block_match, index_of.
  rewrite json_fence_pass; [|exact Hpre|left; apply is_prefix_app].
  rewrite index_of_from_hit by discriminate.
  rewrite Nat.add_0_r, drop_app_add, drop_app_length' by reflexivity.
  rewrite drop_js_ws_app by exact Hws1. rewrite drop_js_ws_stringify.
  rewrite (code_block_match_skip l []) by (exact Hl || reflexivity).
  rewrite (index_of_from_skip _ ws2 _ _ 0); [|reflexivity|lia|
    apply no_bt_bt_state, ws_no_bt, Hws2|apply no_bt_last, ws_no_bt, Hws2].
  rewrite index_of_from_hit by discriminate.
  rewrite app_assoc, take_app_length' by (rewrite length_app; lia).
  apply strip_trailing_stringify, Hws2.
Qed.

Lemma candidate_prose (l : list (jstr * jstr)) (pre post : jstr) :
  fence_free_members l -> ~ includes (u "```json") pre -> ~ In 123%N pre ->
  ~ includes (u "```json") post ->
  candidate_text (pre ++ JSON_stringify_files l ++ post) = JSON_stringify_files l.
Proof.
  intros Hl Hpre Hpre' Hpost.
  assert (code_block_match (pre ++ JSON_stringify_files l ++ post) = None) as Hcb.
  { unfold code_block_match, index_of.
    rewrite json_fence_pass; [|exact Hpre|right; rewrite stringify_app; reflexivity].
    rewrite (code_block_match_skip l []) by (exact Hl || reflexivity).
    rewrite index_of_from_absent by (discriminate || exact Hpost). reflexivity. }
  unfold candidate_text, index_of. rewrite Hcb.
  rewrite index_of_from_char_skip by exact Hpre'.
  replace (index_of_from [123%N] (JSON_stringify_files l ++ post) (length pre + 0))
    with (Some (length pre + 0)%nat) by (rewrite stringify_app; reflexivity).
  rewrite Nat.add_0_r, drop_app_length, brace_scan_stringify.
  pose proof (stringify_length l).
  destruct (Nat.ltb_spec (length pre) (length (JSON_stringify_files l) + length pre));
    [|lia].
  apply take_app_length'. lia.
Qed.

(** C1 (as amended): for a non-empty FileState whose paths are distinct,
    whose paths and contents contain no triple backtick and whose paths
    differ from "__proto__", extracting its [JSON.stringify] form, bare,
    inside a [```json] fence (prose before it holding no [```json],
    whitespace around the JSON), or inside prose (no [```json] in it,
    no [{] before the JSON), gives back the FileState. *)
Theorem extract_roundtrip (l : list (jstr * jstr)) (w : wrapping) :
  l <> [] -> NoDup l.*1 ->
  (forall k v, In (k, v) l ->
     ~ includes (u "```") k /\ ~ includes (u "```") v /\ k <> u "__proto__") ->
  wrapping_ok w ->
  extractAndParseJSON (wrap w (JSON_stringify_files l)) = inr (list_to_map l).
Proof.
  intros Hne Hnd Hkv Hw.
  assert (fence_free_members l) as Hl.
  { apply Forall_forall. intros [k v] Hin. apply list_elem_of_In in Hin.
    destruct (Hkv k v Hin) as (Hk & Hv & _).
    split; apply no_fence_bt_state; assumption. }
  assert (candidate_text (wrap w (JSON_stringify_files l)) = JSON_stringify_files l)
    as Hc.
  { destruct w as [|pre ws1 ws2 post|pre post]; cbn [wrap]; simpl in Hw.
    - apply candidate_bare, Hl.
    - destruct Hw as (Hpre & Hws1 & Hws2). apply candidate_fenced; assumption.
    - destruct Hw as (Hpre & Hpre' & Hpost). apply candidate_prose; assumption. }
  unfold extractAndParseJSON. rewrite Hc. unfold replace_fences.
  rewrite (replace_fences_id _ 0) by
    (lia || (rewrite bt_state_stringify_some by exact Hl; discriminate)).
  rewrite js_trim_stringify, JSON_parse_stringify by exact Hnd.
  cbn [object_entries].
  rewrite build_files_strings; [|exact Hnd|].
  - cbv beta iota. rewrite bool_decide_false; [reflexivity|].
    destruct l as [|[k v] r]; [congruence|]. apply insert_non_empty.
  - apply Forall_forall. intros [k v] Hin. apply list_elem_of_In in Hin.
    apply (Hkv k v Hin).
Qed.

Lemma no_bt_no_fence (s : jstr) : ~ In 96%N s -> ~ includes (u "```") s.
Proof.
  intros H [k1 [k2 ->]]. apply H, in_or_app. right. left. reflexivity.
Qed.

(** Scenario "malformed provider output" of the spec. *)
Example extract_scenario_prose :
  extractAndParseJSON
    (u "Sure! Here is your code:" ++ [10%N] ++ u "```json" ++ [10%N] ++
     uj "{'/a.js':'1'}" ++ [10%N] ++ u "```" ++ [10%N] ++
     u "Let me know if you need changes.")
  = inr {[u "/a.js" := u "1"]}.
Proof. vm_compute. reflexivity. Qed.

(** ** The route: the events of the streaming task *)

Lemma quiet_ret {A} (a : A) : quiet (m_ret a).
Proof. intros st tr. exists [], (inr a). rewrite app_nil_r. split; [reflexivity|constructor]. Qed.

Lemma quiet_throw {A} (e : err) : quiet (m_throw (A:=A) e).
Proof. intros st tr. exists [], (inl e). rewrite app_nil_r. split; [reflexivity|constructor]. Qed.

Lemma quiet_log (s : step) : quiet_step s -> quiet (m_log s).
Proof. intros Hs st tr. exists [s], (inr tt). split; [reflexivity|repeat constructor; exact Hs]. Qed.

Lemma quiet_bind {A B} (m : M A) (f : A -> M B) :
  quiet m -> (forall a, quiet (f a)) -> quiet (m_bind m f).
Proof.
  intros Hm Hf st tr. destruct (Hm st tr) as (e1 & r1 & Heq1 & Hq1).
  unfold m_bind. rewrite Heq1. destruct r1 as [e|a].
  - exists e1, (inl e). split; [reflexivity|exact Hq1].
  - destruct (Hf a st (tr ++ e1)) as (e2 & r2 & Heq2 & Hq2). rewrite Heq2.
    exists (e1 ++ e2), r2. rewrite app_assoc.
    split; [reflexivity|apply Forall_app; split; assumption].
Qed.

Lemma quiet_fetch_upstream (fetch : nat -> fetch_result) : quiet (fetch_upstream fetch).
Proof.
  intros st tr. unfold fetch_upstream. destruct (fetchWithRetry fetch) as [acts res].
  exists (map Step_retry acts), res. split; [reflexivity|].
  apply Forall_map, Forall_forall. intros; exact I.
Qed.

Lemma quiet_process_line (fr line : jstr) : quiet (process_line fr line).
Proof.
  unfold process_line. repeat case_match; try apply quiet_ret.
  apply quiet_bind; [apply quiet_log; reflexivity|intros; apply quiet_ret].
Qed.

Lemma quiet_read_chunks (fr : jstr) (chunks : list jstr) : quiet (read_chunks fr chunks).
Proof.
  revert fr. induction chunks as [|chunk r IH]; intros fr; simpl; [apply quiet_ret|].
  apply quiet_bind; [|exact IH].
  generalize (split_on 10 chunk) as lines. intros lines. revert fr.
  induction lines as [|line ls IHl]; intros fr; simpl; [apply quiet_ret|].
  apply quiet_bind; [apply quiet_process_line|exact IHl].
Qed.

Lemma quiet_extract (t : jstr) : quiet (extract t).
Proof. unfold extract. destruct (extractAndParseJSON t); [apply quiet_throw|apply quiet_ret]. Qed.

Lemma quiet_send_files (ch : list FileChange) (entries : list (jstr * jstr)) :
  quiet (send_files ch entries).
Proof.
  induction entries as [|[n c] r IH]; simpl; [apply quiet_ret|].
  apply quiet_bind; [apply quiet_log; reflexivity|intros _].
  apply quiet_bind; [apply quiet_log; exact I|intros _]. exact IH.
Qed.

Ltac run_quiet lem e r Hq :=
  unfold m_bind at 1;
  lazymatch type of lem with
  | quiet ?m =>
      match goal with
      | |- context [m ?s ?t] =>
          let Heq := fresh "Heq" in
          destruct (lem s t) as (e & r & Heq & Hq); rewrite Heq; clear Heq;
          cbn beta iota
      end
  end.

Ltac quiet_trace :=
  repeat first [ apply Forall_app; split | apply Forall_cons; split | apply Forall_nil
               | assumption | exact I | reflexivity ].

Ltac close_failed :=
  do 3 eexists; split; [reflexivity|]; split; [left; reflexivity|];
  eexists; split; [|left; reflexivity]; quiet_trace.

Lemma send_files_ok (ch : list FileChange) (entries : list (jstr * jstr)) (st : store)
    (tr : list step) :
  exists ext, send_files ch entries st tr = (st, tr ++ ext, inr tt) /\ Forall quiet_step ext.
Proof.
  revert tr. induction entries as [|[n c] r IH]; intros tr.
  - exists []. rewrite app_nil_r. split; [reflexivity|constructor].
  - cbn [send_files]. unfold m_bind at 1. unfold m_log at 1. cbn beta iota.
    unfold m_bind at 1. unfold m_log at 1. cbn beta iota.
    destruct (IH ((tr ++ [Step_send (Ev_file n c
      match find (fun c0 => bool_decide (fc_path c0 = n)) ch with
      | Some c0 => fc_status c0 | None => St_new end)]) ++ [Step_delay 300]))
      as (ext & -> & Hq).
    eexists. rewrite <- !app_assoc. split; [reflexivity|]. simpl. quiet_trace.
Qed.

Lemma save_spec (db : bool) (id : jstr) (is_new : bool) (c : conversation) (st : store)
    (tr : list step) :
  (save db id is_new c st tr = (<[id := c]> st, tr ++ [Step_save id true], inr tt) /\
   (if is_new then st !! id = None else is_Some (st !! id))) \/
  save db id is_new c st tr = (st, tr ++ [Step_save id false], inl Err_save).
Proof.
  unfold save. destruct (doc_valid c && db) eqn:Hv; simpl; [|right; reflexivity].
  destruct is_new.
  - destruct (bool_decide_reflect (st !! id = None)); [left; auto|right; reflexivity].
  - destruct (bool_decide_reflect (is_Some (st !! id))); [left; auto|right; reflexivity].
Qed.

Lemma persist_spec (E : env) (rq : request) (c : option (jstr * conversation))
    (newFiles : filestate) (st : store) (tr : list step) :
  (forall id0 c0, c = Some (id0, c0) -> st !! id0 = Some c0) ->
  exists id b st' r, persist E rq c newFiles st tr = (st', tr ++ [Step_save id b], r) /\
    one_turn_write st st' /\
    ((b = true /\ is_Some (st' !! id) /\ exists ff ch, r = inr (id, ff, ch)) \/
     (b = false /\ exists e, r = inl e)).
Proof.
  intros Hc. unfold persist.
  destruct (if rq_isIterativeUpdate rq then c else None) as [[id c0]|] eqn:Hic.
  - assert (st !! id = Some c0) as Hst.
    { apply Hc. destruct (rq_isIterativeUpdate rq); congruence. }
    unfold m_bind at 1.
    match goal with |- context [save ?db ?i ?n ?cv st tr] =>
      destruct (save_spec db i n cv st tr) as [[-> _]| ->] end; cbn beta iota.
    + do 4 eexists. split; [reflexivity|]. split.
      * right. do 3 eexists. split; [reflexivity|]. split; [apply last_snoc|].
        split; [reflexivity|]. right. exists c0. split; [exact Hst|reflexivity].
      * left. split; [reflexivity|]. split; [rewrite lookup_insert_eq; eauto|eauto].
    + do 4 eexists. split; [reflexivity|]. split; [left; reflexivity|]. right; eauto.
  - unfold m_bind at 1.
    match goal with |- context [save ?db ?i ?n ?cv st tr] =>
      destruct (save_spec db i n cv st tr) as [[-> Hnew]| ->] end; cbn beta iota.
    + do 4 eexists. split; [reflexivity|]. split.
      * right. do 3 eexists. split; [reflexivity|]. split; [reflexivity|].
        split; [reflexivity|]. left. split; [exact Hnew|reflexivity].
      * left. split; [reflexivity|]. split; [rewrite lookup_insert_eq; eauto|eauto].
    + do 4 eexists. split; [reflexivity|]. split; [left; reflexivity|]. right; eauto.
Qed.

Lemma stream_task_shape (E : env) (rq : request) (c : option (jstr * conversation))
    (st : store) :
  (forall id0 c0, c = Some (id0, c0) -> st !! id0 = Some c0) ->
  exists st' tr r, stream_task E rq c st [] = (st', tr, r) /\ one_turn_write st st' /\
    match r with
    | inr _ =>
        exists tr1 id tr2 ch ff,
          tr = tr1 ++ Step_save id true :: tr2 ++ [Step_send (Ev_complete id ch ff)] /\
          Forall quiet_step tr1 /\ Forall quiet_step tr2 /\ is_Some (st' !! id)
    | inl _ =>
        exists tr1, Forall quiet_step tr1 /\
          (tr = tr1 \/ exists id, tr = tr1 ++ [Step_save id false])
    end.
Proof.
  intros Hc. unfold stream_task. unfold m_bind at 1. unfold m_log at 1. cbn beta iota.
  run_quiet (quiet_fetch_upstream (env_fetch E)) e1 r Hq1.
  destruct r as [e|resp]; [close_failed|].
  destruct (resp_body resp) as [chunks|]; [|unfold m_throw; close_failed].
  run_quiet (quiet_read_chunks [] chunks) e2 r Hq2.
  destruct r as [e|fullResponse]; [close_failed|].
  destruct (resp_body_fails resp).
  { unfold m_bind at 1. unfold m_throw at 1. cbn beta iota. close_failed. }
  unfold m_bind at 1. unfold m_ret at 1. cbn beta iota.
  run_quiet (quiet_extract fullResponse) e3 r Hq3.
  destruct r as [e|newFiles]; [close_failed|].
  unfold m_bind at 1.
  match goal with |- context [persist E rq c newFiles ?s ?t] =>
    destruct (persist_spec E rq c newFiles s t Hc)
      as (id & b & st' & r & -> & Hw & Hcase) end.
  cbn beta iota.
  destruct Hcase as [(-> & Hid & ff & ch & ->)|(-> & e & ->)].
  2: { do 3 eexists; split; [reflexivity|]; split; [exact Hw|].
       eexists; split; [|right; eexists; reflexivity]. quiet_trace. }
  unfold m_bind at 1.
  match goal with |- context [send_files ch (map_to_list newFiles) st' ?t] =>
    destruct (send_files_ok ch (map_to_list newFiles) st' t) as (e4 & -> & Hq4) end.
  cbn beta iota. unfold m_log.
  do 3 eexists. split; [reflexivity|]. split; [exact Hw|].
  exists ([Step_send Ev_status] ++ e1 ++ e2 ++ e3), id, e4, ch.
  eexists. split; [rewrite <- !app_assoc; reflexivity|].
  split; [quiet_trace|]. split; [exact Hq4|exact Hid].
Qed.

Lemma sent_app (l1 l2 : list step) : sent (l1 ++ l2) = sent l1 ++ sent l2.
Proof. unfold sent. apply omap_app. Qed.

Lemma quiet_sent (tr : list step) :
  Forall quiet_step tr -> Forall (fun e => is_terminal e = false) (sent tr).
Proof.
  induction 1 as [|s tr Hs _ IH]; [constructor|].
  destruct s; simpl in *; try exact IH. constructor; assumption.
Qed.

Lemma quiet_no_save (tr : list step) (id : jstr) (b : bool) :
  Forall quiet_step tr -> ~ In (Step_save id b) tr.
Proof.
  intros Hq Hin. rewrite Forall_forall in Hq.
  exact (Hq _ (proj2 (list_elem_of_In _ _) Hin)).
Qed.

Lemma stream_run_shape (E : env) (rq : request) (c : option (jstr * conversation))
    (st : store) :
  (forall id0 c0, c = Some (id0, c0) -> st !! id0 = Some c0) ->
  exists st' tr r, stream_run E rq c st [] = (st', tr, r) /\ one_turn_write st st' /\
    exists pre ev, sent tr = pre ++ [ev] /\ Forall (fun e => is_terminal e = false) pre /\
      ((exists id ch ff, ev = Ev_complete id ch ff /\
          (exists tr1 tr2, tr = tr1 ++ Step_save id true :: tr2 /\ In (Step_send ev) tr2) /\
          is_Some (st' !! id) /\ (forall id', ~ In (Step_save id' false) tr)) \/
       (exists e, ev = Ev_error e)).
Proof.
  intros Hc. destruct (stream_task_shape E rq c st Hc) as (st' & tr & r & Heq & Hw & Hs).
  unfold stream_run. unfold m_bind at 1. unfold m_catch. rewrite Heq.
  destruct r as [e|[]]; cbn beta iota; unfold m_log.
  - destruct Hs as (tr1 & Hq & Htr).
    do 3 eexists. split; [reflexivity|]. split; [exact Hw|].
    exists (sent tr1), (Ev_error e).
    split; [|split; [apply quiet_sent, Hq|right; eauto]].
    destruct Htr as [->|[id ->]]; rewrite !sent_app; simpl;
      rewrite ?app_nil_r; reflexivity.
  - destruct Hs as (tr1 & id & tr2 & ch & ff & -> & Hq1 & Hq2 & Hid).
    do 3 eexists. split; [reflexivity|]. split; [exact Hw|].
    exists (sent tr1 ++ sent tr2), (Ev_complete id ch ff). split.
    { rewrite !sent_app. simpl. rewrite !sent_app. simpl. rewrite <- !app_assoc. reflexivity. }
    split; [apply Forall_app; split; apply quiet_sent; assumption|].
    left. exists id, ch, ff. split; [reflexivity|]. split.
    { exists tr1, (tr2 ++ [Step_send (Ev_complete id ch ff); Step_close]). split.
      - rewrite <- !app_assoc. simpl. rewrite <- !app_assoc. reflexivity.
      - apply in_or_app. right. left. reflexivity. }
    split; [exact Hid|]. intros id' Hin.
    repeat (rewrite in_app_iff in Hin; simpl in Hin).
    decompose [or] Hin; try discriminate; try contradiction;
      match goal with H : In _ ?l, Hq : Forall quiet_step ?l |- _ =>
        exact (quiet_no_save _ _ _ Hq H) end.
Qed.

(** The request is answered before any generation, or by the generation
    with the conversation found in the store, if any. *)
Lemma post_cases (E : env) (st : store) (rq : request) :
  (exists code e, post E st rq = (R_error code e, st)) \/
  exists c, (forall id0 c0, c = Some (id0, c0) -> st !! id0 = Some c0) /\
    ((rq_streaming rq = true /\
      post E st rq = let '(st', tr, _) := stream_run E rq c st [] in (R_stream tr, st')) \/
     (rq_streaming rq = false /\
      post E st rq =
        match nonstream_task E rq c st [] with
        | (st', _, inr (files, fullFiles, changes, id)) => (R_ok files fullFiles changes id, st')
        | (st', _, inl e) => (R_error 500 (RE_thrown e), st')
        end)).
Proof.
  unfold post.
  destruct (env_connect_ok E); [|left; eauto]. simpl.
  destruct (missing_input rq); [left; eauto|].
  destruct (truthy (env_api_key E)); [|left; eauto]. simpl.
  assert (forall c : option (jstr * conversation),
    (forall id0 c0, c = Some (id0, c0) -> st !! id0 = Some c0) ->
    exists c', (forall id0 c0, c' = Some (id0, c0) -> st !! id0 = Some c0) /\
    ((rq_streaming rq = true /\
      (if rq_streaming rq then let '(st', tr, _) := stream_run E rq c st [] in (R_stream tr, st')
       else match nonstream_task E rq c st [] with
        | (st', _, inr (files, fullFiles, changes, id)) => (R_ok files fullFiles changes id, st')
        | (st', _, inl e) => (R_error 500 (RE_thrown e), st')
        end) = let '(st', tr, _) := stream_run E rq c' st [] in (R_stream tr, st')) \/
     (rq_streaming rq = false /\
      (if rq_streaming rq then let '(st', tr, _) := stream_run E rq c st [] in (R_stream tr, st')
       else match nonstream_task E rq c st [] with
        | (st', _, inr (files, fullFiles, changes, id)) => (R_ok files fullFiles changes id, st')
        | (st', _, inl e) => (R_error 500 (RE_thrown e), st')
        end) =
        match nonstream_task E rq c' st [] with
        | (st', _, inr (files, fullFiles, changes, id)) => (R_ok files fullFiles changes id, st')
        | (st', _, inl e) => (R_error 500 (RE_thrown e), st')
        end))) as Hgen.
  { intros c Hc. exists c. split; [exact Hc|].
    destruct (rq_streaming rq); [left|right]; split; reflexivity. }
  destruct (rq_isIterativeUpdate rq && truthy (rq_conversationId rq)).
  - destruct (rq_conversationId rq) as [id|].
    + destruct (env_cast_id E id) as [oid|]; [|left; eauto].
      destruct (st !! oid) as [c|] eqn:Hst; [|left; eauto].
      right. apply Hgen. intros id0 c0 Heq. injection Heq as <- <-. exact Hst.
    + right. apply Hgen. discriminate.
  - right. apply Hgen. discriminate.
Qed.

(** C5: whatever the provider, the database and the request, the events
    of a streaming answer end in exactly one terminal event, none before
    it: either [complete], sent after the successful write of the
    conversation it names, which is then stored, in a run where no write
    failed; or [error] (any failure, a failed write included). *)
Theorem streaming_single_terminal (E : env) (st : store) (rq : request) :
  match post E st rq with
  | (R_stream tr, st') =>
      exists pre ev, sent tr = pre ++ [ev] /\ Forall (fun e => is_terminal e = false) pre /\
        ((exists id ch ff, ev = Ev_complete id ch ff /\
            (exists tr1 tr2, tr = tr1 ++ Step_save id true :: tr2 /\ In (Step_send ev) tr2) /\
            is_Some (st' !! id) /\ (forall id', ~ In (Step_save id' false) tr)) \/
         (exists e, ev = Ev_error e))
  | _ => True
  end.
Proof.
  destruct (post_cases E st rq) as [(code & e & ->)|(c & Hc & [(_ & ->)|(_ & ->)])].
  - exact I.
  - destruct (stream_run_shape E rq c st Hc) as (st' & tr & r & -> & _ & H). exact H.
  - destruct (nonstream_task E rq c st []) as [[? ?] [?|[[[? ?] ?] ?]]]; exact I.
Qed.

(** ** The route: the conversation store *)

Lemma quiet_lift {A} (r : err + A) : quiet (m_lift r).
Proof. destruct r; [apply quiet_throw|apply quiet_ret]. Qed.

Lemma quiet_response_json (resp : upstream_response) : quiet (response_json resp).
Proof.
  unfold response_json. destruct (resp_body_fails resp); [apply quiet_throw|].
  case_match; [apply quiet_ret|apply quiet_throw].
Qed.

Lemma nonstream_write (E : env) (rq : request) (c : option (jstr * conversation))
    (st : store) :
  (forall id0 c0, c = Some (id0, c0) -> st !! id0 = Some c0) ->
  one_turn_write st (nonstream_task E rq c st []).1.1.
Proof.
  intros Hc. unfold nonstream_task.
  run_quiet (quiet_fetch_upstream (env_fetch E)) e1 r Hq1.
  destruct r as [e|resp]; [left; reflexivity|].
  run_quiet (quiet_response_json resp) e2 r Hq2.
  destruct r as [e|data]; [left; reflexivity|].
  run_quiet (quiet_lift (js_get data (u "stop_reason"))) e3 r Hq3.
  destruct r as [e|stop_reason]; [left; reflexivity|].
  destruct (is_jstr stop_reason (u "max_tokens")); [left; reflexivity|].
  run_quiet (quiet_lift (js_get data (u "content"))) e4 r Hq4.
  destruct r as [e|content]; [left; reflexivity|].
  run_quiet (quiet_lift (js_get_opt content (u "0"))) e5 r Hq5.
  destruct r as [e|first]; [left; reflexivity|].
  run_quiet (quiet_lift (js_get_chain first (u "text"))) e6 r Hq6.
  destruct r as [e|responseText]; [left; reflexivity|].
  destruct (negb (truthy_val responseText)); [left; reflexivity|].
  destruct responseText as [v|]; [destruct v|]; try (left; reflexivity).
  match goal with |- context [extract ?t] => run_quiet (quiet_extract t) e7 r Hq7 end.
  destruct r as [e|newFiles]; [left; reflexivity|].
  unfold m_bind at 1.
  match goal with |- context [persist E rq c newFiles ?s ?t] =>
    destruct (persist_spec E rq c newFiles s t Hc)
      as (id & b & st' & r & -> & Hw & Hcase) end.
  cbn beta iota.
  destruct Hcase as [(-> & _ & ff & ch & ->)|(-> & e & ->)]; exact Hw.
Qed.

Lemma post_write (E : env) (st : store) (rq : request) :
  one_turn_write st (post E st rq).2.
Proof.
  destruct (post_cases E st rq) as [(code & e & ->)|(c & Hc & [(_ & ->)|(_ & ->)])].
  - left. reflexivity.
  - destruct (stream_run_shape E rq c st Hc) as (st' & tr & r & -> & Hw & _). exact Hw.
  - pose proof (nonstream_write E rq c st Hc) as Hw.
    destruct (nonstream_task E rq c st []) as [[st' tr] [e|[[[files ff] ch] id]]]; exact Hw.
Qed.

Lemma one_turn_write_inv (st st' : store) :
  store_inv st -> one_turn_write st st' -> store_inv st'.
Proof.
  intros Hi [->|(id & conv & t & -> & Hl & Hcf & _)]; [exact Hi|].
  apply map_Forall_insert_2; [|exact Hi]. unfold conv_consistent. rewrite Hl. exact Hcf.
Qed.

(** C7: a request writes at most one conversation, in one write, whose
    [currentFiles] is the [fullState] of the turn it appends (or of the
    only turn of a new conversation); over any sequence of requests,
    every stored conversation keeps [currentFiles] equal to the
    [fullState] of its last turn. *)
Theorem currentFiles_mirrors_last_turn :
  (forall (E : env) (st : store) (rq : request), one_turn_write st (post E st rq).2) /\
  (forall (reqs : list (env * request)) (st : store),
     store_inv st -> store_inv (post_all reqs st)).
Proof.
  split; [exact post_write|].
  intros reqs. induction reqs as [|[E rq] r IH]; intros st Hi; simpl; [exact Hi|].
  apply IH. eapply one_turn_write_inv; [exact Hi|apply post_write].
Qed.

(** C6 (code bug): the streaming path reads no [stop_reason]; an answer
    stopped at the token limit is extracted as it is: a JSON that happens
    to be complete gives a [complete] event, a cut one an extraction
    error.  The non-streaming path fails with the truncation error. *)
Theorem max_tokens_streaming_extracts :
  match (post (env_answering (max_tokens_stream (uj "{'/a.js':'1'}"))) ∅
          (generate_request true)).1 with
  | R_stream tr => sent tr
  | _ => []
  end =
  [Ev_status; Ev_progress (JStr (uj "{'/a.js':'1'}"));
   Ev_file (u "/a.js") (u "1") St_new;
   Ev_complete (u "id1") [mkFileChange (u "/a.js") St_new None] {[u "/a.js" := u "1"]}] /\
  match (post (env_answering (max_tokens_stream (uj "{'/a.js':'1"))) ∅
          (generate_request true)).1 with
  | R_stream tr => sent tr
  | _ => []
  end =
  [Ev_status; Ev_progress (JStr (uj "{'/a.js':'1")); Ev_error (Err_extract Ex_syntax)] /\
  (post (env_answering (max_tokens_message (uj "{'/a.js':'1'}"))) ∅
     (generate_request false)).1 = R_error 500 (RE_thrown Err_truncated).
Proof. split; [|split]; vm_compute; reflexivity. Qed.

(** C8: when the database connection succeeds, the answer is 400 exactly
    when neither a prompt nor a non-empty [uploadedFiles] is given;
    otherwise it is 500 when the API key is absent or empty; otherwise,
    for an iterative update with a non-empty [conversationId], it is 404
    when the id casts to the ObjectId of no stored conversation, but 500
    (the cast error of [findById], caught by the outer [catch]), not
    404, when the id does not cast to an ObjectId. *)
Theorem post_status_codes (E : env) (st : store) (rq : request) :
  env_connect_ok E = true ->
  ((post E st rq).1 = R_error 400 RE_missing_input <-> missing_input rq = true) /\
  (missing_input rq = false -> truthy (env_api_key E) = false ->
   (post E st rq).1 = R_error 500 RE_missing_key) /\
  (missing_input rq = false -> truthy (env_api_key E) = true ->
   rq_isIterativeUpdate rq = true ->
   forall id, rq_conversationId rq = Some id -> id <> [] ->
   (forall oid, env_cast_id E id = Some oid -> st !! oid = None ->
    (post E st rq).1 = R_error 404 RE_not_found) /\
   (env_cast_id E id = None -> (post E st rq).1 = R_error 500 (RE_thrown Err_find))).
Proof.
  intros Hconn. unfold post. rewrite Hconn. cbn [negb].
  split; [|split].
  - destruct (missing_input rq); [split; reflexivity|].
    split; [|discriminate]. intros H; exfalso; revert H.
    destruct (truthy (env_api_key E)); cbn [negb]; [|discriminate].
    assert (forall c, (if rq_streaming rq then
              let '(st', tr, _) := stream_run E rq c st [] in (R_stream tr, st')
            else match nonstream_task E rq c st [] with
              | (st', _, inr (files, fullFiles, changes, id)) =>
                  (R_ok files fullFiles changes id, st')
              | (st', _, inl e) => (R_error 500 (RE_thrown e), st')
              end).1 <> R_error 400 RE_missing_input) as Hg.
    { intros c. destruct (rq_streaming rq).
      - destruct (stream_run E rq c st []) as [[? ?] ?]. discriminate.
      - destruct (nonstream_task E rq c st []) as [[? ?] [?|[[[? ?] ?] ?]]]; discriminate. }
    destruct (rq_isIterativeUpdate rq && truthy (rq_conversationId rq)); [|apply Hg].
    destruct (rq_conversationId rq) as [id|]; [|apply Hg].
    destruct (env_cast_id E id) as [oid|]; [|discriminate].
    destruct (st !! oid); [apply Hg|discriminate].
  - intros -> ->. reflexivity.
  - intros -> -> -> id -> Hne. destruct id as [|c id]; [congruence|]. cbn.
    split; [intros oid -> ->|intros ->]; reflexivity.
Qed.

(** ** The character-reveal scheduler *)

Lemma prop_lookup_nth (files : list (jstr * jstr)) (i : nat) (n c : jstr) :
  NoDup (map fst files) -> files !! i = Some (n, c) -> prop_lookup n files = Some c.
Proof.
  revert i. induction files as [|[k v] r IH]; intros i Hnd Hi; [discriminate|].
  simpl in Hnd. apply NoDup_cons in Hnd as [Hk Hnd]. simpl.
  destruct i as [|j]; simpl in Hi.
  - injection Hi as <- <-. rewrite bool_decide_true by reflexivity. reflexivity.
  - rewrite bool_decide_false; [exact (IH j Hnd Hi)|].
    intros <-. apply Hk. apply list_elem_of_In, in_map_iff.
    exists (k, c). split; [reflexivity|]. apply list_elem_of_In.
    exact (list_elem_of_lookup_2 _ _ _ Hi).
Qed.

Lemma lookup_map_fst (files : list (jstr * jstr)) (i : nat) (n c : jstr) :
  files !! i = Some (n, c) -> map fst files !! i = Some n.
Proof.
  revert i. induction files as [|kv r IH]; intros i Hi; [discriminate|].
  destruct i as [|j]; simpl in *; [injection Hi as ->; reflexivity|exact (IH j Hi)].
Qed.

Lemma total_length_cons (kv : jstr * jstr) (r : list (jstr * jstr)) :
  total_length (kv :: r) = (length kv.2 + total_length r)%nat.
Proof. reflexivity. Qed.

Lemma run_display_from (files : list (jstr * jstr)) (fuel i c0 : nat) (n content : jstr)
    (s : display_state) :
  NoDup (map fst files) -> files !! i = Some (n, content) ->
  currentFileIndex s = i -> currentCharIndex s = c0 -> (c0 <= length content)%nat ->
  isComplete s = false -> hasNavigated s = false ->
  (length content - c0 + total_length (drop (S i) files) + (length files - i) <= fuel)%nat ->
  run_display fuel files s =
    map (fun k => Tick n (take (S k) content)) (seq c0 (length content - c0)) ++
    flat_map reveal_file (drop (S i) files) ++ [Fire].
Proof.
  revert i c0 n content s.
  induction fuel as [|f IH]; intros i c0 n content s Hnd Hi Hfi Hci Hc0 Hic Hhn Hfuel.
  { pose proof (lookup_lt_Some _ _ _ Hi). lia. }
  pose proof (lookup_lt_Some _ _ _ Hi) as Hlt.
  cbn [run_display]. unfold streaming_effect.
  rewrite bool_decide_false by (rewrite length_map; lia).
  rewrite Hfi, (lookup_map_fst _ _ _ _ Hi), (prop_lookup_nth _ _ _ _ Hnd Hi), Hci.
  destruct (Nat.ltb_spec c0 (length content)) as [Hlt_c|Hge_c].
  - (* a tick *)
    cbn beta iota zeta. cbn [displayedFiles]. rewrite lookup_insert_eq.
    replace (length content - c0)%nat with (S (length content - S c0)) by lia.
    cbn [seq map app]. rewrite Nat.add_1_r. f_equal.
    apply (IH i (S c0)); simpl; try assumption; try lia.
  - assert (c0 = length content) as -> by lia. rewrite Nat.sub_diag. cbn [seq map app].
    rewrite length_map.
    destruct (Nat.ltb_spec i (length files - 1)) as [Hnext|Hlast]; cbn beta iota.
    + (* the next file *)
      destruct (lookup_lt_is_Some_2 files (S i)) as [[n' c'] Hi']; [lia|].
      rewrite (drop_S _ _ _ Hi'). cbn [flat_map]. rewrite <- app_assoc.
      unfold reveal_file at 1. cbn [fst snd].
      rewrite <- (Nat.sub_0_r (length c')).
      apply (IH (S i) 0 n' c'); simpl; try assumption; try lia.
      rewrite (drop_S _ _ _ Hi'), total_length_cons in Hfuel. simpl in Hfuel. lia.
    + (* the last file: the callback *)
      rewrite Hic, Hhn. cbn [negb andb].
      rewrite drop_ge by lia. cbn [flat_map app].
      destruct f as [|f]; [reflexivity|].
      cbn [run_display]. unfold streaming_effect. cbn [currentFileIndex currentCharIndex
        isComplete hasNavigated negb andb].
      rewrite bool_decide_false by (rewrite length_map; lia).
      rewrite (lookup_map_fst _ _ _ _ Hi), (prop_lookup_nth _ _ _ _ Hnd Hi).
      destruct (Nat.ltb_spec (length content) (length content)); [lia|].
      destruct (Nat.ltb_spec i (length (map fst files) - 1)); [rewrite length_map in *; lia|].
      reflexivity.
Qed.

Lemma reveal_length (files : list (jstr * jstr)) :
  length (flat_map reveal_file files) = total_length files.
Proof.
  induction files as [|kv r IH]; [reflexivity|].
  cbn [flat_map]. rewrite length_app, IH, total_length_cons.
  unfold reveal_file. rewrite length_map, length_seq. reflexivity.
Qed.

(** C9: for a non-empty list of files with distinct names, of total
    length [L], a session ticks [L] times, revealing the files in order,
    one more character of the current file at each tick, then calls the
    completion callback once, and nothing follows (whatever the fuel
    beyond [L] plus the number of files). *)
Theorem display_fires_once (files : list (jstr * jstr)) (fuel : nat) :
  files <> [] -> NoDup (map fst files) ->
  (total_length files + length files <= fuel)%nat ->
  run_display fuel files display_init = flat_map reveal_file files ++ [Fire] /\
  length (flat_map reveal_file files) = total_length files.
Proof.
  intros Hne Hnd Hfuel. split; [|apply reveal_length].
  destruct files as [|[n c] r]; [congruence|].
  rewrite (run_display_from ((n, c) :: r) fuel 0 0 n c display_init); try reflexivity;
    try assumption.
  - cbn [flat_map drop]. unfold reveal_file at 2. cbn [fst snd].
    rewrite Nat.sub_0_r, app_assoc. reflexivity.
  - lia.
  - rewrite total_length_cons in Hfuel. simpl in Hfuel |- *. rewrite drop_0. lia.
Qed.

(** ** The stream consumers *)

Lemma ws_on_event_files (s : ws_state) (ev : sse_event) :
  not_complete ev -> ws_files (ws_on_event s ev) = ws_files s.
Proof.
  destruct ev as [| |n c ct|id ch ff|e]; intros H; try reflexivity; [|contradiction].
  cbn [ws_on_event]. destruct (truthy (Some n) && truthy (Some c)); reflexivity.
Qed.

Lemma ws_run_files (s : ws_state) (evs : list sse_event) :
  Forall not_complete evs -> ws_files (ws_run s evs) = ws_files s.
Proof.
  unfold ws_run. revert s. induction evs as [|ev r IH]; intros s Hf; [reflexivity|].
  inversion Hf as [|? ? Hev Hr]; subst. simpl.
  rewrite IH by exact Hr. apply ws_on_event_files, Hev.
Qed.

Lemma ws_run_streamed (s : ws_state) (evs : list sse_event) (n : jstr) :
  (forall c ct, In (Ev_file n c ct) evs -> c = []) ->
  ws_streamedFiles (ws_run s evs) !! n = ws_streamedFiles s !! n /\
  (n ∈ ws_generatedFilesList (ws_run s evs) <-> n ∈ ws_generatedFilesList s).
Proof.
  unfold ws_run. revert s. induction evs as [|ev r IH]; intros s Hn; [split; reflexivity|].
  simpl. rewrite (proj1 (IH _ (fun c ct H => Hn c ct (or_intror H)))),
    (proj2 (IH _ (fun c ct H => Hn c ct (or_intror H)))).
  destruct ev as [| |n' c ct|id ch ff|e]; try (split; reflexivity).
  cbn [ws_on_event]. destruct (truthy (Some n') && truthy (Some c)) eqn:Ht;
    [|split; reflexivity].
  destruct (decide (n' = n)) as [->|Hne].
  - rewrite (Hn c ct (or_introl eq_refl)) in Ht.
    rewrite andb_false_r in Ht. discriminate.
  - cbn [ws_streamedFiles ws_generatedFilesList]. split.
    + rewrite lookup_insert_ne by exact Hne. reflexivity.
    + case_bool_decide; [reflexivity|]. rewrite elem_of_app, list_elem_of_singleton.
      split; [intros [Hm|Hm]; [exact Hm|congruence]|intros Hm; left; exact Hm].
Qed.

Lemma gen_run_absent (evs : list sse_event) (g : filestate) (stored : option filestate)
    (n : jstr) :
  (forall c ct, In (Ev_file n c ct) evs -> c = []) ->
  g !! n = None -> (forall m, stored = Some m -> m !! n = None) ->
  (gen_run g stored evs).1 !! n = None /\
  (forall m, (gen_run g stored evs).2 = Some m -> m !! n = None).
Proof.
  revert g stored. induction evs as [|ev r IH]; intros g stored Hn Hg Hs; [split; assumption|].
  assert (forall c ct, In (Ev_file n c ct) r -> c = []) as Hr by (intros; apply (Hn c ct); right; assumption).
  destruct ev as [| |n' c ct|id ch ff|e]; cbn [gen_run]; try (apply IH; assumption).
  - destruct (truthy (Some n') && truthy (Some c)) eqn:Ht; apply IH; try assumption.
    destruct (decide (n' = n)) as [->|Hne].
    + rewrite (Hn c ct (or_introl eq_refl)), andb_false_r in Ht. discriminate.
    + rewrite lookup_insert_ne by exact Hne. exact Hg.
  - apply IH; try assumption. intros m Hm. injection Hm as <-. exact Hg.
Qed.

(** C10: both consumers drop a [file] event whose content is empty.  On
    the workspace page such a file enters neither the streamed files nor
    the generated list, and [files] is the [fullFiles] of the last
    [complete] event; on the generation page the file never enters the
    generated files, nor what [complete] stores for the workspace,
    whatever the [fullFiles] of that [complete] event hold. *)
Theorem consumers_drop_empty_files :
  (forall s n ct, ws_on_event s (Ev_file n [] ct) = s) /\
  (forall g stored n ct r, gen_run g stored (Ev_file n [] ct :: r) = gen_run g stored r) /\
  (forall s evs n, (forall c ct, In (Ev_file n c ct) evs -> c = []) ->
     ws_streamedFiles (ws_run s evs) !! n = ws_streamedFiles s !! n /\
     (n ∈ ws_generatedFilesList (ws_run s evs) <-> n ∈ ws_generatedFilesList s)) /\
  (forall s pre id ch ff post, Forall not_complete post ->
     ws_files (ws_run s (pre ++ Ev_complete id ch ff :: post)) = ff) /\
  (forall evs g stored n,
     (forall c ct, In (Ev_file n c ct) evs -> c = []) ->
     g !! n = None -> (forall m, stored = Some m -> m !! n = None) ->
     (gen_run g stored evs).1 !! n = None /\
     (forall m, (gen_run g stored evs).2 = Some m -> m !! n = None)).
Proof.
  split; [|split; [|split; [|split]]].
  - intros s n ct. cbn [ws_on_event]. rewrite andb_false_r. reflexivity.
  - intros g stored n ct r. cbn [gen_run]. rewrite andb_false_r. reflexivity.
  - exact ws_run_streamed.
  - intros s pre id ch ff post Hpost. unfold ws_run. rewrite fold_left_app. simpl.
    exact (ws_run_files _ post Hpost).
  - exact gen_run_absent.
Qed.

(** ** The route: what a request writes and what it sends *)

Lemma looked_up_found (E : env) (st : store) (rq : request) (id : jstr) (c : conversation) :
  looked_up E st rq = Some (id, c) ->
  st !! id = Some c /\ rq_isIterativeUpdate rq = true /\
  exists id0, rq_conversationId rq = Some id0 /\ env_cast_id E id0 = Some id.
Proof.
  unfold looked_up.
  destruct (rq_isIterativeUpdate rq); [|discriminate]. simpl.
  destruct (truthy (rq_conversationId rq)); [|discriminate].
  destruct (rq_conversationId rq) as [id'|]; [|discriminate].
  destruct (env_cast_id E id') as [oid|] eqn:Hc; [|discriminate].
  destruct (st !! oid) eqn:Hst; [|discriminate]. intros [= <- <-]. eauto.
Qed.

Lemma looked_up_consistent (E : env) (st : store) (rq : request) :
  forall id0 c0, looked_up E st rq = Some (id0, c0) -> st !! id0 = Some c0.
Proof. intros id0 c0 H. apply (looked_up_found _ _ _ _ _ H). Qed.

(** [POST] answers before any generation, or generates with the
    conversation [looked_up] finds. *)
Lemma post_generate (E : env) (st : store) (rq : request) :
  (exists code e, post E st rq = (R_error code e, st)) \/
  (rq_streaming rq = true /\
   post E st rq = let '(st', tr, _) := stream_run E rq (looked_up E st rq) st [] in
                  (R_stream tr, st')) \/
  (rq_streaming rq = false /\
   post E st rq =
     match nonstream_task E rq (looked_up E st rq) st [] with
     | (st', _, inr (files, fullFiles, changes, id)) => (R_ok files fullFiles changes id, st')
     | (st', _, inl e) => (R_error 500 (RE_thrown e), st')
     end).
Proof.
  unfold post, looked_up.
  destruct (env_connect_ok E); [|left; eauto]. simpl.
  destruct (missing_input rq); [left; eauto|].
  destruct (truthy (env_api_key E)); [|left; eauto]. simpl.
  destruct (rq_isIterativeUpdate rq && truthy (rq_conversationId rq)).
  - destruct (rq_conversationId rq) as [id|].
    + destruct (env_cast_id E id) as [oid|]; [|left; eauto].
      destruct (st !! oid) as [c|]; [|left; eauto].
      right. destruct (rq_streaming rq); [left|right]; split; reflexivity.
    + right. destruct (rq_streaming rq); [left|right]; split; reflexivity.
  - right. destruct (rq_streaming rq); [left|right]; split; reflexivity.
Qed.

Lemma persist_ok (E : env) (rq : request) (c : option (jstr * conversation))
    (newFiles : filestate) (st st' : store) (tr tr' : list step) (id : jstr)
    (full : filestate) (ch : list FileChange) :
  persist E rq c newFiles st tr = (st', tr', inr (id, full, ch)) ->
  full = newFiles ∪ previous_files rq c /\
  ch = detectFileChanges (previous_files rq c) newFiles /\
  tr' = tr ++ [Step_save id true] /\
  match (if rq_isIterativeUpdate rq then c else None) with
  | Some (id0, c0) =>
      id = id0 /\ is_Some (st !! id) /\ st' = <[id := appended_conversation c0 rq ch full]> st
  | None =>
      id = env_new_id E /\ st !! id = None /\
      st' = <[id := fresh_conversation rq newFiles full]> st
  end.
Proof.
  unfold persist, previous_files, appended_conversation, fresh_conversation.
  destruct (if rq_isIterativeUpdate rq then c else None) as [[id0 c0]|];
  unfold m_bind at 1;
  match goal with |- context [save ?db ?i ?n ?cv st tr] =>
    destruct (save_spec db i n cv st tr) as [[-> Hs]| ->] end; cbn beta iota;
  unfold m_ret; try discriminate;
  intros H; injection H as <- <- <- <- <-; repeat split; assumption.
Qed.

Lemma persist_err (E : env) (rq : request) (c : option (jstr * conversation))
    (newFiles : filestate) (st st' : store) (tr tr' : list step) (e : err) :
  persist E rq c newFiles st tr = (st', tr', inl e) -> st' = st.
Proof.
  unfold persist.
  destruct (if rq_isIterativeUpdate rq then c else None) as [[id0 c0]|];
  unfold m_bind at 1;
  match goal with |- context [save ?db ?i ?n ?cv st tr] =>
    destruct (save_spec db i n cv st tr) as [[-> Hs]| ->] end; cbn beta iota;
  unfold m_ret; try discriminate;
  intros H; injection H as <- _ _; reflexivity.
Qed.

(** Without a prompt the document fails its validation. *)
Lemma persist_no_prompt (E : env) (rq : request) (c : option (jstr * conversation))
    (newFiles : filestate) (st : store) (tr : list step) :
  truthy (rq_prompt rq) = false ->
  persist E rq c newFiles st tr = (st, tr ++ [Step_save (match (if rq_isIterativeUpdate rq then c else None) with Some (id, _) => id | None => env_new_id E end) false], inl Err_save).
Proof.
  intros Hp. unfold persist.
  destruct (if rq_isIterativeUpdate rq then c else None) as [[id0 c0]|];
  unfold m_bind at 1; unfold save at 1;
  (match goal with |- context [doc_valid ?cv] => replace (doc_valid cv) with false end;
   [reflexivity|unfold doc_valid; simpl; rewrite ?forallb_app; simpl; rewrite Hp;
                rewrite ?andb_false_r; reflexivity]).
Qed.

Lemma send_files_sent (ch : list FileChange) (entries : list (jstr * jstr)) (st : store)
    (tr : list step) :
  exists ext, send_files ch entries st tr = (st, tr ++ ext, inr tt) /\
    Forall quiet_step ext /\ sent ext = map (file_event ch) entries.
Proof.
  revert tr. induction entries as [|[n c] r IH]; intros tr.
  - exists []. rewrite app_nil_r. repeat split; constructor.
  - cbn [send_files]. unfold m_bind at 1. unfold m_log at 1. cbn beta iota.
    unfold m_bind at 1. unfold m_log at 1. cbn beta iota.
    match goal with |- context [send_files ch r st ?t] =>
      destruct (IH t) as (ext & -> & Hq & Hs) end.
    eexists. rewrite <- !app_assoc. split; [reflexivity|]. split; [simpl; quiet_trace|].
    rewrite !sent_app, Hs. reflexivity.
Qed.

Lemma build_files_go_proto (files f : filestate) (entries : list (jstr * jvalue)) :
  files !! u "__proto__" = None -> build_files_go files entries = Some f ->
  f !! u "__proto__" = None.
Proof.
  revert files. induction entries as [|[key value] r IH]; intros files Hp; simpl.
  - intros [= <-]. exact Hp.
  - destruct (js_to_string value); [|discriminate]. apply IH.
    case_bool_decide as Hk; [exact Hp|]. rewrite lookup_insert_ne; [exact Hp|exact Hk].
Qed.

Lemma extract_files_nonempty (s : jstr) (files : filestate) :
  extractAndParseJSON s = inr files -> files <> ∅.
Proof.
  unfold extractAndParseJSON. repeat case_match; try discriminate.
  intros [= <-]. match goal with H : bool_decide _ = false |- _ =>
    apply bool_decide_eq_false in H; exact H end.
Qed.

Lemma stream_task_result (E : env) (rq : request) (c : option (jstr * conversation))
    (st : store) :
  let '(st', tr, r) := stream_task E rq c st [] in
  match r with
  | inl _ => st' = st
  | inr _ =>
      exists newFiles tr0 id full ch, newFiles <> ∅ /\ Forall quiet_step tr0 /\
        persist E rq c newFiles st tr0 = (st', tr0 ++ [Step_save id true], inr (id, full, ch)) /\
        sent tr = sent tr0 ++ map (file_event ch) (map_to_list newFiles) ++
                  [Ev_complete id ch (if rq_isIterativeUpdate rq then full else newFiles)]
  end.
Proof.
  unfold stream_task. unfold m_bind at 1. unfold m_log at 1. cbn beta iota.
  run_quiet (quiet_fetch_upstream (env_fetch E)) e1 r Hq1.
  destruct r as [e|resp]; [exact eq_refl|].
  destruct (resp_body resp) as [chunks|]; [|exact eq_refl].
  run_quiet (quiet_read_chunks [] chunks) e2 r Hq2.
  destruct r as [e|fullResponse]; [exact eq_refl|].
  destruct (resp_body_fails resp); [exact eq_refl|].
  unfold m_bind at 1. unfold m_ret at 1. cbn beta iota.
  unfold m_bind at 1. unfold extract at 1.
  destruct (extractAndParseJSON fullResponse) as [e|newFiles] eqn:Hx; [exact eq_refl|].
  unfold m_ret at 1. cbn beta iota.
  unfold m_bind at 1.
  match goal with |- context [persist E rq c newFiles st ?t] =>
    destruct (persist E rq c newFiles st t) as [[st' tr'] r] eqn:Hp;
    pose proof (eq_refl t) as Ht end.
  cbn beta iota.
  destruct r as [e|[[id full] ch]].
  { exact (persist_err _ _ _ _ _ _ _ _ _ Hp). }
  destruct (persist_ok _ _ _ _ _ _ _ _ _ _ _ Hp) as (_ & _ & -> & _).
  unfold m_bind at 1.
  match goal with |- context [send_files ch (map_to_list newFiles) st' ?t] =>
    destruct (send_files_sent ch (map_to_list newFiles) st' t) as (e4 & -> & _ & Hs4) end.
  cbn beta iota. unfold m_log.
  do 5 eexists. split; [exact (extract_files_nonempty _ _ Hx)|].
  split; [|split; [exact Hp|]]; [quiet_trace|].
  rewrite !sent_app, Hs4. rewrite <- !app_assoc. reflexivity.
Qed.

Lemma stream_run_result (E : env) (rq : request) (c : option (jstr * conversation))
    (st : store) :
  (forall id0 c0, c = Some (id0, c0) -> st !! id0 = Some c0) ->
  let '(st', tr, _) := stream_run E rq c st [] in
  (st' = st /\ exists pre e, sent tr = pre ++ [Ev_error e] /\
     Forall (fun ev => is_terminal ev = false) pre) \/
  (exists newFiles tr0 id full ch, newFiles <> ∅ /\ Forall quiet_step tr0 /\
     persist E rq c newFiles st tr0 = (st', tr0 ++ [Step_save id true], inr (id, full, ch)) /\
     sent tr = sent tr0 ++ map (file_event ch) (map_to_list newFiles) ++
               [Ev_complete id ch (if rq_isIterativeUpdate rq then full else newFiles)]).
Proof.
  intros Hc. pose proof (stream_task_result E rq c st) as Hr.
  destruct (stream_task_shape E rq c st Hc) as (st' & tr & r & Heq & _ & Hs).
  rewrite Heq in Hr. unfold stream_run. unfold m_bind at 1. unfold m_catch. rewrite Heq.
  destruct r as [e|[]]; cbn beta iota; unfold m_log; cbn beta iota.
  - left. split; [exact Hr|]. destruct Hs as (tr1 & Hq & Htr).
    exists (sent tr1), e. split; [|apply quiet_sent, Hq].
    destruct Htr as [->|[id ->]]; rewrite !sent_app; simpl; rewrite ?app_nil_r; reflexivity.
  - right. destruct Hr as (newFiles & tr0 & id & full & ch & Hne & Hq & Hp & Hs').
    exists newFiles, tr0, id, full, ch. split; [exact Hne|]. split; [exact Hq|].
    split; [exact Hp|]. rewrite sent_app, Hs'.
    change (sent [Step_close]) with (@nil sse_event). rewrite app_nil_r. reflexivity.
Qed.

Lemma nonstream_task_result (E : env) (rq : request) (c : option (jstr * conversation))
    (st : store) :
  let '(st', _, r) := nonstream_task E rq c st [] in
  match r with
  | inl _ => st' = st
  | inr (files, full, ch, id) =>
      files <> ∅ /\ exists tr0 tr1, persist E rq c files st tr0 = (st', tr1, inr (id, full, ch))
  end.
Proof.
  unfold nonstream_task.
  run_quiet (quiet_fetch_upstream (env_fetch E)) e1 r Hq1.
  destruct r as [e|resp]; [exact eq_refl|].
  run_quiet (quiet_response_json resp) e2 r Hq2.
  destruct r as [e|data]; [exact eq_refl|].
  run_quiet (quiet_lift (js_get data (u "stop_reason"))) e3 r Hq3.
  destruct r as [e|stop_reason]; [exact eq_refl|].
  destruct (is_jstr stop_reason (u "max_tokens")); [exact eq_refl|].
  run_quiet (quiet_lift (js_get data (u "content"))) e4 r Hq4.
  destruct r as [e|content]; [exact eq_refl|].
  run_quiet (quiet_lift (js_get_opt content (u "0"))) e5 r Hq5.
  destruct r as [e|first]; [exact eq_refl|].
  run_quiet (quiet_lift (js_get_chain first (u "text"))) e6 r Hq6.
  destruct r as [e|responseText]; [exact eq_refl|].
  destruct (negb (truthy_val responseText)); [exact eq_refl|].
  destruct responseText as [v|]; [destruct v|]; try exact eq_refl.
  unfold m_bind at 1. unfold extract at 1.
  match goal with |- context [extractAndParseJSON ?t] =>
    destruct (extractAndParseJSON t) as [e|newFiles] eqn:Hx end; [exact eq_refl|].
  unfold m_ret at 1. cbn beta iota.
  unfold m_bind at 1.
  match goal with |- context [persist E rq c newFiles st ?t] =>
    destruct (persist E rq c newFiles st t) as [[st' tr'] r] eqn:Hp end.
  cbn beta iota.
  destruct r as [e|[[id full] ch]].
  - exact (persist_err _ _ _ _ _ _ _ _ _ Hp).
  - unfold m_ret. split; [exact (extract_files_nonempty _ _ Hx)|]. eauto.
Qed.

(** A successful answer, with the write behind it. *)
Lemma post_success (E : env) (st : store) (rq : request) :
  match post E st rq with
  | (R_ok files ff ch id, st') =>
      files <> ∅ /\
      exists tr0 tr1, persist E rq (looked_up E st rq) files st tr0 = (st', tr1, inr (id, ff, ch))
  | (R_stream tr, st') =>
      forall id ch ff, In (Ev_complete id ch ff) (sent tr) ->
      exists files full tr0 pre, files <> ∅ /\
        persist E rq (looked_up E st rq) files st tr0 =
          (st', tr0 ++ [Step_save id true], inr (id, full, ch)) /\
        ff = (if rq_isIterativeUpdate rq then full else files) /\
        sent tr = pre ++ map (file_event ch) (map_to_list files) ++ [Ev_complete id ch ff] /\
        Forall (fun ev => is_terminal ev = false) pre
  | (R_error _ _, st') => st' = st
  end.
Proof.
  destruct (post_generate E st rq) as [(code & e & ->)|[(_ & ->)|(_ & ->)]].
  - reflexivity.
  - pose proof (stream_run_result E rq (looked_up E st rq) st (looked_up_consistent E st rq)) as H.
    destruct (stream_run E rq (looked_up E st rq) st []) as [[st' tr] r].
    intros id ch ff Hin.
    destruct H as [(_ & pre & e & Hs & Hq)|(files & tr0 & id' & full & ch' & Hne & Hq & Hp & Hs)].
    + exfalso. rewrite Hs, in_app_iff in Hin. destruct Hin as [Hin|[Hin|[]]]; [|discriminate].
      rewrite Forall_forall in Hq.
      specialize (Hq _ (proj2 (list_elem_of_In _ _) Hin)). discriminate.
    + rewrite Hs in Hin. rewrite !in_app_iff in Hin.
      destruct Hin as [Hin|[Hin|[Hin|[]]]].
      * exfalso. apply quiet_sent in Hq. rewrite Forall_forall in Hq.
        specialize (Hq _ (proj2 (list_elem_of_In _ _) Hin)). discriminate.
      * exfalso. apply in_map_iff in Hin as ([p x] & Heq & _). discriminate.
      * injection Hin as <- <- <-.
        exists files, full, tr0, (sent tr0). split; [exact Hne|]. split; [exact Hp|].
        split; [reflexivity|]. split; [exact Hs|]. apply quiet_sent, Hq.
  - pose proof (nonstream_task_result E rq (looked_up E st rq) st) as H.
    destruct (nonstream_task E rq (looked_up E st rq) st []) as [[st' tr] [e|[[[files ff] ch] id]]];
      exact H.
Qed.

(** A write appends a turn or creates a conversation whose
    [currentFiles] is the full state. *)
Lemma persist_current_files (E : env) (rq : request) (c : option (jstr * conversation))
    (newFiles : filestate) (st st' : store) (tr tr' : list step) (id : jstr)
    (full : filestate) (ch : list FileChange) :
  persist E rq c newFiles st tr = (st', tr', inr (id, full, ch)) ->
  exists cv, st' !! id = Some cv /\ cv_currentFiles cv = full.
Proof.
  intros Hp. destruct (persist_ok _ _ _ _ _ _ _ _ _ _ _ Hp) as (_ & _ & _ & Hm).
  destruct (if rq_isIterativeUpdate rq then c else None) as [[id0 c0]|];
    destruct Hm as (_ & _ & ->); rewrite lookup_insert_eq; eauto.
Qed.

Lemma find_push_changes (A B : filestate) (l : list jstr) (p : jstr) :
  NoDup l ->
  find (fun c => bool_decide (fc_path c = p)) (push_changes A B l) =
    if bool_decide (p ∈ l) then classify_path A B p else None.
Proof.
  induction l as [|q l IH]; intros Hnd; cbn [push_changes].
  - rewrite bool_decide_false; [reflexivity|apply not_elem_of_nil].
  - apply NoDup_cons in Hnd as [Hq Hnd].
    assert (bool_decide (p ∈ q :: l) = bool_decide (p = q \/ p ∈ l)) as ->
      by (apply bool_decide_ext; apply elem_of_cons).
    destruct (decide (q = p)) as [<-|Hne].
    + rewrite bool_decide_true by (left; reflexivity).
      destruct (classify_path A B q) as [c|] eqn:Hc; cbn [find].
      * rewrite (classify_path_path _ _ _ _ Hc), bool_decide_true by reflexivity.
        reflexivity.
      * rewrite IH by exact Hnd. rewrite bool_decide_false; [reflexivity|].
        exact Hq.
    + assert (bool_decide (p = q \/ p ∈ l) = bool_decide (p ∈ l)) as ->
        by (apply bool_decide_ext; split; [intros [->|H]; [congruence|exact H]|auto]).
      destruct (classify_path A B q) as [c|] eqn:Hc; cbn [find].
      * rewrite (classify_path_path _ _ _ _ Hc), bool_decide_false by congruence.
        apply IH, Hnd.
      * apply IH, Hnd.
Qed.

Lemma file_event_classified (prev files : filestate) (p x : jstr) :
  files !! p = Some x ->
  file_event (detectFileChanges prev files) (p, x) =
    Ev_file p x (match classify_path prev files p with Some c => fc_status c | None => St_new end).
Proof.
  intros Hx. unfold file_event, detectFileChanges. simpl.
  rewrite find_push_changes by apply set_of_list_aux_nodup.
  rewrite bool_decide_true; [reflexivity|].
  unfold set_of_list. rewrite set_of_list_aux_elem. split; [|apply not_elem_of_nil].
  apply elem_of_app. right. apply object_keys_elem. rewrite Hx. eexists; reflexivity.
Qed.

(** A request that fails writes nothing: an error answer, or a stream
    that carries an [error] event, leaves the store as it was. *)
Theorem failed_request_no_write (E : env) (st : store) (rq : request) :
  match post E st rq with
  | (R_error _ _, st') => st' = st
  | (R_stream tr, st') => (exists e, In (Ev_error e) (sent tr)) -> st' = st
  | (R_ok _ _ _ _, _) => True
  end.
Proof.
  destruct (post_generate E st rq) as [(code & e & ->)|[(_ & ->)|(_ & ->)]].
  - reflexivity.
  - pose proof (stream_run_result E rq (looked_up E st rq) st (looked_up_consistent E st rq)) as H.
    destruct (stream_run E rq (looked_up E st rq) st []) as [[st' tr] r].
    intros [e Hin].
    destruct H as [(-> & _)|(files & tr0 & id & full & ch & _ & Hq & _ & Hs)]; [reflexivity|].
    exfalso. rewrite Hs, !in_app_iff in Hin. destruct Hin as [Hin|[Hin|[Hin|[]]]].
    + apply quiet_sent in Hq. rewrite Forall_forall in Hq.
      specialize (Hq _ (proj2 (list_elem_of_In _ _) Hin)). discriminate.
    + apply in_map_iff in Hin as ([p x] & Heq & _). discriminate.
    + discriminate.
  - pose proof (nonstream_task_result E rq (looked_up E st rq) st) as H.
    destruct (nonstream_task E rq (looked_up E st rq) st []) as [[st' tr] [e|[[[files ff] ch] id]]];
      [exact H|exact I].
Qed.

(** A request without a prompt (absent or empty), e.g. one with
    uploaded files only, never writes and never succeeds: the document
    fails its [required] validation after the generation. *)
Theorem no_prompt_never_saved (E : env) (st : store) (rq : request) :
  truthy (rq_prompt rq) = false ->
  (post E st rq).2 = st /\
  match (post E st rq).1 with
  | R_ok _ _ _ _ => False
  | R_stream tr => forall id ch ff, ~ In (Ev_complete id ch ff) (sent tr)
  | R_error _ _ => True
  end.
Proof.
  intros Hp.
  destruct (post_generate E st rq) as [(code & e & ->)|[(_ & ->)|(_ & ->)]].
  - split; [reflexivity|exact I].
  - pose proof (stream_run_result E rq (looked_up E st rq) st (looked_up_consistent E st rq)) as H.
    destruct (stream_run E rq (looked_up E st rq) st []) as [[st' tr] r]. simpl.
    destruct H as [(-> & pre & e & Hs & Hq)|(files & tr0 & id & full & ch & _ & _ & Hpe & _)].
    + split; [reflexivity|]. intros id ch ff Hin. rewrite Hs, in_app_iff in Hin.
      destruct Hin as [Hin|[Hin|[]]]; [|discriminate].
      rewrite Forall_forall in Hq. specialize (Hq _ (proj2 (list_elem_of_In _ _) Hin)).
      discriminate.
    + exfalso. rewrite persist_no_prompt in Hpe by exact Hp. discriminate.
  - pose proof (nonstream_task_result E rq (looked_up E st rq) st) as H.
    destruct (nonstream_task E rq (looked_up E st rq) st []) as [[st' tr] [e|[[[files ff] ch] id]]];
      simpl.
    + split; [exact H|exact I].
    + exfalso. destruct H as (_ & tr0 & tr1 & Hpe).
      rewrite persist_no_prompt in Hpe by exact Hp. discriminate.
Qed.

(** A non-streaming success returns a non-empty [files], [fullFiles]
    equal to [files] over the previous files, [changedFiles] the
    difference of the previous files and [files]; the conversation it
    names is stored with [currentFiles] equal to [fullFiles]. *)
Theorem nonstream_answer (E : env) (st : store) (rq : request) :
  match post E st rq with
  | (R_ok files fullFiles changedFiles id, st') =>
      files <> ∅ /\
      fullFiles = files ∪ previous_files rq (looked_up E st rq) /\
      changedFiles = detectFileChanges (previous_files rq (looked_up E st rq)) files /\
      exists c, st' !! id = Some c /\ cv_currentFiles c = fullFiles
  | _ => True
  end.
Proof.
  pose proof (post_success E st rq) as H.
  destruct (post E st rq) as [[code e|files ff ch id|tr] st']; try exact I.
  destruct H as (Hne & tr0 & tr1 & Hp). split; [exact Hne|].
  destruct (persist_ok _ _ _ _ _ _ _ _ _ _ _ Hp) as (Hf & Hc & _ & _).
  split; [exact Hf|]. split; [exact Hc|].
  exact (persist_current_files _ _ _ _ _ _ _ _ _ _ _ Hp).
Qed.

(** A [complete] event of a stream comes last, right after one [file]
    event per generated file (a non-empty set), with no terminal event
    before them; its [changedFiles] is the difference of the previous
    files and the generated ones, its [fullFiles] the union for an
    iterative update and the generated files only otherwise; the
    conversation it names is stored with the union as [currentFiles]. *)
Theorem streamed_files_then_complete (E : env) (st : store) (rq : request) :
  match post E st rq with
  | (R_stream tr, st') =>
      forall id ch ff, In (Ev_complete id ch ff) (sent tr) ->
      exists files pre, files <> ∅ /\
        sent tr = pre ++ map (file_event ch) (map_to_list files) ++ [Ev_complete id ch ff] /\
        Forall (fun ev => is_terminal ev = false) pre /\
        ch = detectFileChanges (previous_files rq (looked_up E st rq)) files /\
        ff = (if rq_isIterativeUpdate rq
              then files ∪ previous_files rq (looked_up E st rq) else files) /\
        exists c, st' !! id = Some c /\
          cv_currentFiles c = files ∪ previous_files rq (looked_up E st rq)
  | _ => True
  end.
Proof.
  pose proof (post_success E st rq) as H.
  destruct (post E st rq) as [[code e|files ff ch id|tr] st']; try exact I.
  intros id ch ff Hin.
  destruct (H id ch ff Hin) as (files & full & tr0 & pre & Hne & Hp & Hff & Hs & Hq).
  destruct (persist_ok _ _ _ _ _ _ _ _ _ _ _ Hp) as (Hf & Hc & _ & _).
  exists files, pre. split; [exact Hne|]. split; [exact Hs|]. split; [exact Hq|].
  split; [exact Hc|]. split; [rewrite Hff, Hf; reflexivity|].
  rewrite <- Hf. exact (persist_current_files _ _ _ _ _ _ _ _ _ _ _ Hp).
Qed.

(** Without a stored conversation to update, a success inserts a new
    conversation under the fresh id, which was free: the request's
    userId and prompt, one turn listing every generated file as new. *)
Theorem new_conversation_saved (E : env) (st : store) (rq : request) :
  looked_up E st rq = None ->
  match post E st rq with
  | (R_ok files ff ch id, st') =>
      id = env_new_id E /\ st !! id = None /\
      st' = <[id := fresh_conversation rq files ff]> st
  | (R_stream tr, st') =>
      forall id ch ff, In (Ev_complete id ch ff) (sent tr) ->
      id = env_new_id E /\ st !! id = None /\
      exists files, st' = <[id := fresh_conversation rq files (files ∪ previous_files rq None)]> st
  | _ => True
  end.
Proof.
  intros Hl. pose proof (post_success E st rq) as H. rewrite Hl in H.
  destruct (post E st rq) as [[code e|files ff ch id|tr] st']; try exact I.
  - destruct H as (_ & tr0 & tr1 & Hp).
    destruct (persist_ok _ _ _ _ _ _ _ _ _ _ _ Hp) as (_ & _ & _ & Hm).
    destruct (rq_isIterativeUpdate rq); exact Hm.
  - intros id ch ff Hin. destruct (H id ch ff Hin) as (files & full & tr0 & pre & _ & Hp & _).
    destruct (persist_ok _ _ _ _ _ _ _ _ _ _ _ Hp) as (Hf & _ & _ & Hm). subst full.
    destruct (rq_isIterativeUpdate rq); destruct Hm as (-> & Hn & ->);
      (split; [reflexivity|split; [exact Hn|eexists; reflexivity]]).
Qed.

(** An iterative update of a stored conversation that succeeds rewrites
    that conversation only, appending one turn and keeping its userId,
    initial prompt and uploaded files (whatever userId the request
    carries). *)
Theorem iterative_update_appends (E : env) (st : store) (rq : request) (id0 : jstr)
    (c0 : conversation) :
  looked_up E st rq = Some (id0, c0) ->
  match post E st rq with
  | (R_ok files ff ch id, st') =>
      id = id0 /\ st' = <[id0 := appended_conversation c0 rq ch ff]> st
  | (R_stream tr, st') =>
      forall id ch ff, In (Ev_complete id ch ff) (sent tr) ->
      id = id0 /\ st' = <[id0 := appended_conversation c0 rq ch ff]> st
  | _ => True
  end.
Proof.
  intros Hl. destruct (looked_up_found _ _ _ _ _ Hl) as (_ & Hi & _).
  pose proof (post_success E st rq) as H. rewrite Hl in H.
  destruct (post E st rq) as [[code e|files ff ch id|tr] st']; try exact I.
  - destruct H as (_ & tr0 & tr1 & Hp).
    destruct (persist_ok _ _ _ _ _ _ _ _ _ _ _ Hp) as (_ & _ & _ & Hm). rewrite Hi in Hm.
    destruct Hm as (-> & _ & ->). split; reflexivity.
  - intros id ch ff Hin.
    destruct (H id ch ff Hin) as (files & full & tr0 & pre & _ & Hp & Hff & _).
    rewrite Hi in Hff. subst ff.
    destruct (persist_ok _ _ _ _ _ _ _ _ _ _ _ Hp) as (_ & _ & _ & Hm). rewrite Hi in Hm.
    destruct Hm as (-> & _ & ->). split; reflexivity.
Qed.

(** The [changeType] of the [file] event of a generated file [p] with
    content [x]: "new" when [p] is unchanged or had no (or an empty)
    previous content; "updated" for another non-empty previous content,
    and also for an empty file that did not exist; "deleted" for an
    emptied file.  Where [p] is not a key of the previous files, it is
    not the name of a member of [Object.prototype] either:
    [previousFiles[p]] would find that member. *)
Theorem file_event_changeType (prev files : filestate) (p x : jstr) :
  files !! p = Some x ->
  (prev !! p = Some x ->
     file_event (detectFileChanges prev files) (p, x) = Ev_file p x St_new) /\
  (x <> [] -> (prev !! p = None /\ ~ In p object_prototype_keys) \/ prev !! p = Some [] ->
     file_event (detectFileChanges prev files) (p, x) = Ev_file p x St_new) /\
  (x <> [] -> forall y, prev !! p = Some y -> y <> [] -> y <> x ->
     file_event (detectFileChanges prev files) (p, x) = Ev_file p x St_updated) /\
  (x = [] -> prev !! p = None -> ~ In p object_prototype_keys ->
     file_event (detectFileChanges prev files) (p, x) = Ev_file p x St_updated) /\
  (x = [] -> forall y, prev !! p = Some y -> y <> [] ->
     file_event (detectFileChanges prev files) (p, x) = Ev_file p x St_deleted).
Proof.
  intros Hx. rewrite (file_event_classified _ _ _ _ Hx). unfold classify_path. rewrite Hx.
  split; [|split; [|split; [|split]]].
  - intros ->. destruct x; cbn [truthy negb andb];
      rewrite bool_decide_false by congruence; reflexivity.
  - intros Hne [[-> _]| ->]; (destruct x; [congruence|reflexivity]).
  - intros Hne y -> Hy Hyx. destruct x; [congruence|]. destruct y; [congruence|].
    cbn [truthy negb andb]. rewrite bool_decide_true by congruence. reflexivity.
  - intros -> -> _. reflexivity.
  - intros -> y -> Hy. destruct y; [congruence|reflexivity].
Qed.

(** [extractAndParseJSON] never returns an empty FileState, nor one with
    the key "__proto__" (such a key of the JSON is dropped). *)
Theorem extract_result_files (s : jstr) (files : filestate) :
  extractAndParseJSON s = inr files -> files <> ∅ /\ files !! u "__proto__" = None.
Proof.
  intros H. split; [exact (extract_files_nonempty _ _ H)|].
  revert H. unfold extractAndParseJSON, build_files. repeat case_match; try discriminate.
  intros [= <-]. eapply (build_files_go_proto ∅); [apply lookup_empty|eassumption].
Qed.

(** [GET] returns one conversation exactly when connected, given a
    non-empty conversationId that casts to the ObjectId of a stored
    conversation (the one returned) and, as userId, that conversation's
    non-empty userId. *)
Theorem get_conversation_owned (E : env)
    (sort_by_updatedAt : list (jstr * conversation) -> list (jstr * conversation))
    (st : store) (userId conversationId : option jstr) (oid : jstr) (c : conversation) :
  get E sort_by_updatedAt st userId conversationId = G_conversation oid c <->
  env_connect_ok E = true /\
  (exists id, conversationId = Some id /\ id <> [] /\ env_cast_id E id = Some oid) /\
  st !! oid = Some c /\ cv_userId c <> [] /\ userId = Some (cv_userId c).
Proof.
  unfold get. split.
  - destruct (env_connect_ok E); simpl; [|discriminate].
    destruct userId as [[|u0 uid]|]; [discriminate| |discriminate].
    destruct conversationId as [[|i0 i]|]; try discriminate.
    destruct (env_cast_id E (i0 :: i)) as [oid'|] eqn:Hv; [|discriminate].
    destruct (st !! oid') as [c'|] eqn:Hs; [|discriminate].
    case_bool_decide as Hu; [|discriminate]. intros [= <- <-]. rewrite Hu.
    split; [reflexivity|]. split; [exists (i0 :: i); split; [reflexivity|]; split; [discriminate|exact Hv]|].
    split; [exact Hs|]. split; [discriminate|reflexivity].
  - intros (-> & (id & -> & Hid & Hv) & Hs & Hu & ->). simpl.
    destruct (cv_userId c) as [|u0 uid] eqn:Hc; [congruence|].
    destruct id as [|i0 i]; [congruence|]. rewrite Hv, Hs.
    rewrite bool_decide_true by exact Hc. reflexivity.
Qed.

(** Without a (non-empty) conversationId, [GET] lists each conversation
    of the user once and no other, when the sort only reorders. *)
Theorem get_lists_own_conversations (E : env)
    (sort_by_updatedAt : list (jstr * conversation) -> list (jstr * conversation))
    (st : store) (uid : jstr) (conversationId : option jstr) :
  (forall l, sort_by_updatedAt l ≡ₚ l) ->
  env_connect_ok E = true -> uid <> [] -> truthy conversationId = false ->
  exists cs, get E sort_by_updatedAt st (Some uid) conversationId = G_conversations cs /\
    NoDup cs.*1 /\ (forall id c, (id, c) ∈ cs <-> st !! id = Some c /\ cv_userId c = uid).
Proof.
  intros Hsort Hc Hu Hcid. unfold get. rewrite Hc. simpl.
  destruct uid as [|u0 uid]; [congruence|].
  destruct conversationId as [[|i0 i]|]; [| discriminate Hcid |];
    (eexists; split; [reflexivity|]); (split;
    [apply NoDup_fmap_fst;
     [intros x y1 y2; rewrite !(Hsort _), !list_elem_of_filter, !elem_of_map_to_list;
      intros [_ H1] [_ H2]; congruence
     |rewrite (Hsort _); apply NoDup_filter, NoDup_map_to_list]
    |intros id c; rewrite (Hsort _), list_elem_of_filter, elem_of_map_to_list; simpl;
     split; intros [Ha Hb]; split; assumption]).
Qed.

End Extraction.

(** C1 counterexample: a content holding a triple backtick loses it (the
    fence markers are removed from the candidate text); the empty
    FileState is rejected; a [{] in the prose before the serialization
    is taken for the start of the JSON. *)
Lemma extract_roundtrip_counterexample :
  extractAndParseJSON (fun x => x) (JSON_stringify_files [(u "/a.js", u "```")])
    = inr {[u "/a.js" := []]} /\
  {[u "/a.js" := []]} <> ({[u "/a.js" := u "```"]} : filestate) /\
  extractAndParseJSON (fun x => x) (JSON_stringify_files []) = inl Ex_no_files /\
  extractAndParseJSON (fun x => x)
    (wrap (W_prose (u "Use {x} here: ") []) (JSON_stringify_files [(u "/a.js", u "1")]))
    = inl Ex_syntax /\
  extractAndParseJSON (fun x => x)
    (wrap (W_fenced (u "Mark it ```json``` like this: ") [10%N] [10%N] [])
       (JSON_stringify_files [(u "/a.js", u "1")]))
    = inl Ex_syntax /\
  extractAndParseJSON (fun x => x)
    (wrap (W_prose [] (u " (no ```json``` fence needed)"))
       (JSON_stringify_files [(u "/a.js", u "1")]))
    = inl Ex_syntax.
Proof.
  split; [vm_compute; reflexivity|]. split.
  - intros H. apply (f_equal (lookup (u "/a.js"))) in H. vm_compute in H. congruence.
  - split; [|split; [|split]]; vm_compute; reflexivity.
Qed.

Lemma extract_roundtrip_witness :
  extractAndParseJSON (fun x => x)
    (wrap (W_fenced (u "Here is `App.js`: ") [10%N] [10%N] (u " Rename `x` if needed."))
       (JSON_stringify_files [(u "/a.js", u "1")]))
  = inr (list_to_map [(u "/a.js", u "1")]).
Proof.
  apply extract_roundtrip.
  - discriminate.
  - apply NoDup_singleton.
  - intros k v [Hkv|[]]. injection Hkv as <- <-.
    split; [|split; [|vm_compute; discriminate]];
      apply no_bt_no_fence; simpl; intuition discriminate.
  - split; [apply not_includes_of_index; vm_compute; reflexivity|split; repeat constructor].
Defined.

(** C4 counterexample: with every fetch answering 529 there is no sleep
    of 4000 ms. *)
Lemma fetchWithRetry_529_counterexample :
  ~ In (Act_sleep 4000)
      (fst (fetchWithRetry (fun _ => Fetch_response (mkResponse 529 None false)))).
Proof. vm_compute. intuition discriminate. Qed.

Lemma fetchWithRetry_always_529_witness :
  fetchWithRetry (fun _ => Fetch_response (mkResponse 529 None false)) =
    ([Act_fetch 1; Act_sleep 1000; Act_fetch 2; Act_sleep 2000; Act_fetch 3],
     inl (Err_status 529)).
Proof.
  apply fetchWithRetry_always_529. intros n.
  exists (mkResponse 529 None false). split; reflexivity.
Defined.

Lemma post_status_codes_witness :
  env_connect_ok (env_answering []) = true /\
  let E := env_answering [] in
  let rq := mkRequest (Some (u "add a button")) None None true (u "anonymous")
              (Some (u "abc")) true in
  ((post (fun x => x) (fun _ => true) E ∅ rq).1 = R_error 400 RE_missing_input <->
   missing_input rq = true) /\
  (missing_input rq = false -> truthy (env_api_key E) = false ->
   (post (fun x => x) (fun _ => true) E ∅ rq).1 = R_error 500 RE_missing_key) /\
  (missing_input rq = false -> truthy (env_api_key E) = true ->
   rq_isIterativeUpdate rq = true ->
   forall id, rq_conversationId rq = Some id -> id <> [] ->
   (forall oid, env_cast_id E id = Some oid -> (∅ : gmap jstr conversation) !! oid = None ->
    (post (fun x => x) (fun _ => true) E ∅ rq).1 = R_error 404 RE_not_found) /\
   (env_cast_id E id = None ->
    (post (fun x => x) (fun _ => true) E ∅ rq).1 = R_error 500 (RE_thrown Err_find))).
Proof.
  split; [reflexivity|]. cbv zeta.
  apply (post_status_codes (fun x => x) (fun _ => true)). reflexivity.
Defined.

Lemma display_fires_once_witness :
  [(u "/a.js", u "ab"); (u "/b.css", [])] <> [] /\
  NoDup (map fst [(u "/a.js", u "ab"); (u "/b.css", [])]) /\
  (total_length [(u "/a.js", u "ab"); (u "/b.css", [])] +
   length [(u "/a.js", u "ab"); (u "/b.css", [])] <= 4)%nat /\
  run_display 4 [(u "/a.js", u "ab"); (u "/b.css", [])] display_init =
    flat_map reveal_file [(u "/a.js", u "ab"); (u "/b.css", [])] ++ [Fire] /\
  length (flat_map reveal_file [(u "/a.js", u "ab"); (u "/b.css", [])]) =
    total_length [(u "/a.js", u "ab"); (u "/b.css", [])].
Proof.
  split; [discriminate|]. split; [apply (bool_decide_unpack _); vm_compute; reflexivity|].
  split; [simpl; lia|].
  apply display_fires_once;
    [discriminate|apply (bool_decide_unpack _); vm_compute; reflexivity|simpl; lia].
Defined.

(** A generated file with empty content reaches the generation page only
    as a [file] event, which is dropped, and [complete] does not bring it
    there: the files stored for the workspace lack it, though the
    [fullFiles] of [complete] hold it. *)
Lemma generation_page_empty_file_run :
  (match (post (fun x => x) (fun _ => true) (env_answering (text_stream (uj "{'/a.js':''}")))
           ∅ (generate_request true)).1 with
  | R_stream tr => sent tr
  | _ => []
  end =
  [Ev_status; Ev_progress (JStr (uj "{'/a.js':''}")); Ev_file (u "/a.js") [] St_updated;
   Ev_complete (u "id1") [mkFileChange (u "/a.js") St_updated None] {[u "/a.js" := []]}]) /\
  gen_run ∅ None
    [Ev_status; Ev_progress (JStr (uj "{'/a.js':''}")); Ev_file (u "/a.js") [] St_updated;
     Ev_complete (u "id1") [mkFileChange (u "/a.js") St_updated None] {[u "/a.js" := []]}]
  = (∅, Some ∅).
Proof. split; vm_compute; reflexivity. Qed.

Lemma connect_calls_cached (os : list bool) (p : bool) :
  connect_calls os (mkCache p (Some p)) = (repeat p (length os), 0).
Proof.
  induction os as [|o os IH]; [reflexivity|].
  destruct p; simpl in *; rewrite IH; reflexivity.
Qed.

(** [connectMongo] opens the connection once: the first call starts it,
    every later call returns its outcome (a failure included, which is
    cached as well) without a new attempt. *)
Theorem connectMongo_first_outcome (o : bool) (os : list bool) :
  connect_calls (o :: os) cache_init = (repeat o (S (length os)), 1).
Proof. simpl. rewrite connect_calls_cached. reflexivity. Qed.



Lemma retry_loop_outcome (fetch : nat -> fetch_result) (retries : nat) (backoff : Q)
    (attempt fuel : nat) :
  1 <= attempt -> attempt + fuel = S retries -> 1 <= fuel ->
  let '(acts, res) := retry_loop fetch retries backoff attempt fuel in
  exists k, attempt <= k <= retries /\ attempts acts = seq attempt (S k - attempt) /\
    (forall j, attempt <= j < k -> fetch_failed (fetch j)) /\
    match res with
    | inr r => fetch k = Fetch_response r /\ resp_ok r = true
    | inl e => k = retries /\ attempt_error (fetch k) e
    end.
Proof.
  revert backoff attempt. induction fuel as [|fuel IH]; intros backoff attempt H1 Hsum Hf; [lia|].
  cbn [retry_loop].
  assert (forall e, attempt_error (fetch attempt) e ->
    let '(acts, res) :=
      (if Nat.eqb attempt retries then ([Act_fetch attempt], inl e)
       else let '(acts, res) :=
              retry_loop fetch retries (backoff * (3 # 2))%Q (S attempt) fuel in
            (Act_fetch attempt :: Act_sleep backoff :: acts, res)) in
    exists k, attempt <= k <= retries /\ attempts acts = seq attempt (S k - attempt) /\
      (forall j, attempt <= j < k -> fetch_failed (fetch j)) /\
      match res with
      | inr r => fetch k = Fetch_response r /\ resp_ok r = true
      | inl e => k = retries /\ attempt_error (fetch k) e
      end) as Honerr.
  { intros e He. destruct (Nat.eqb_spec attempt retries) as [->|Hne].
    - exists retries. split; [lia|]. split; [replace (S retries - retries) with 1 by lia; reflexivity|].
      split; [intros; lia|]. split; [reflexivity|exact He].
    - specialize (IH (backoff * (3 # 2))%Q (S attempt) ltac:(lia) ltac:(lia) ltac:(lia)).
      destruct (retry_loop fetch retries (backoff * (3 # 2))%Q (S attempt) fuel) as [acts res].
      destruct IH as (k & Hk & Ha & Hfail & Hres). exists k. split; [lia|].
      split; [simpl; rewrite Ha; replace (S k - attempt) with (S (S k - S attempt)) by lia;
              reflexivity|].
      split; [|exact Hres]. intros j Hj.
      destruct (Nat.eq_dec j attempt) as [Hja|Hj']; [subst j|apply Hfail; lia].
      destruct (fetch attempt); simpl in He |- *; [exact I|apply He]. }
  destruct (fetch attempt) as [|r] eqn:Ef.
  - apply Honerr. reflexivity.
  - destruct ((resp_status r =? 529)%Z && Nat.ltb attempt retries) eqn:H529.
    + apply andb_true_iff in H529 as [H529 Hlt]. apply Nat.ltb_lt in Hlt.
      specialize (IH (backoff * 2)%Q (S attempt) ltac:(lia) ltac:(lia) ltac:(lia)).
      destruct (retry_loop fetch retries (backoff * 2)%Q (S attempt) fuel) as [acts res].
      destruct IH as (k & Hk & Ha & Hfail & Hres). exists k. split; [lia|].
      split; [simpl; rewrite Ha; replace (S k - attempt) with (S (S k - S attempt)) by lia;
              reflexivity|].
      split; [|exact Hres]. intros j Hj.
      destruct (Nat.eq_dec j attempt) as [Hja|Hj']; [subst j|apply Hfail; lia].
      rewrite Ef. simpl. unfold resp_ok. apply Z.eqb_eq in H529. rewrite H529. reflexivity.
    + destruct (resp_ok r) eqn:Hok; simpl.
      * exists attempt. split; [lia|]. split; [replace (S attempt - attempt) with 1 by lia; reflexivity|].
        split; [intros; lia|]. split; [first [exact Ef|reflexivity]|exact Hok].
      * apply Honerr. try rewrite Ef. simpl. split; [exact Hok|reflexivity].
Qed.

(** [fetchWithRetry] makes 1 to 3 attempts, numbered from 1; every
    attempt before the last one failed; it returns the response of the
    last attempt when that one is accepted, and otherwise the last
    attempt is the third and the error is that of its failure. *)
Theorem fetchWithRetry_outcome (fetch : nat -> fetch_result) :
  let '(acts, res) := fetchWithRetry fetch in
  exists k, 1 <= k <= 3 /\ attempts acts = seq 1 k /\
    (forall j, 1 <= j < k -> fetch_failed (fetch j)) /\
    match res with
    | inr r => fetch k = Fetch_response r /\ resp_ok r = true
    | inl e => k = 3 /\ attempt_error (fetch 3) e
    end.
Proof.
  pose proof (retry_loop_outcome fetch 3 1000 1 3 ltac:(lia) ltac:(lia) ltac:(lia)) as H.
  unfold fetchWithRetry, fetchWithRetry_gen.
  destruct (retry_loop fetch 3 1000 1 3) as [acts res].
  destruct H as (k & Hk & Ha & Hf & Hr). exists k. split; [exact Hk|].
  split; [rewrite Ha; f_equal; lia|]. split; [exact Hf|].
  destruct res; [destruct Hr as [-> Hr]; split; [reflexivity|exact Hr]|exact Hr].
Qed.


(** When no fetch succeeds and none answers 529, the three attempts are
    separated by sleeps of 1000 ms then 1500 ms, and the error of the
    third attempt is thrown. *)
Theorem fetchWithRetry_persistent_error (fetch : nat -> fetch_result) :
  (forall j, match fetch j with
             | Fetch_network_error => True
             | Fetch_response r => resp_ok r = false /\ resp_status r <> 529%Z
             end) ->
  exists e, fetchWithRetry fetch =
    ([Act_fetch 1; Act_sleep 1000; Act_fetch 2; Act_sleep (1000 * (3 # 2))%Q; Act_fetch 3],
     inl e) /\ attempt_error (fetch 3) e.
Proof.
  intros Hf. pose proof (Hf 1) as H1. pose proof (Hf 2) as H2. pose proof (Hf 3) as H3.
  unfold fetchWithRetry, fetchWithRetry_gen. cbn [retry_loop Nat.eqb Nat.ltb Nat.leb].
  destruct (fetch 1) as [|r1];
    [|destruct H1 as [O1 S1]; apply Z.eqb_neq in S1; rewrite S1, O1]; cbn;
  (destruct (fetch 2) as [|r2];
    [|destruct H2 as [O2 S2]; apply Z.eqb_neq in S2; rewrite S2, O2]; cbn);
  (destruct (fetch 3) as [|r3];
    [|destruct H3 as [O3 S3]; apply Z.eqb_neq in S3; rewrite S3, O3]; cbn);
  eexists; (split; [reflexivity|]); simpl; auto.
Qed.


Lemma split_blank_nonempty (s : jstr) : split_blank s <> [].
Proof.
  destruct s as [|c [|c2 r]]; simpl; try discriminate.
  destruct (_ && _); [discriminate|]. unfold cons_head. case_match; discriminate.
Qed.

Lemma split_blank_rect (P : jstr -> Prop) :
  P [] -> (forall c, P [c]) ->
  (forall c c2 r, P r -> P (c2 :: r) -> P (c :: c2 :: r)) ->
  forall s, P s.
Proof.
  intros H0 H1 H2.
  assert (forall n s, length s <= n -> P s) as H.
  { induction n as [|n IH]; intros s Hs.
    - destruct s; [exact H0|simpl in Hs; lia].
    - destruct s as [|c [|c2 r]]; [exact H0|apply H1|].
      simpl in Hs. apply H2; apply IH; simpl; lia. }
  intros s. apply (H (length s)). lia.
Qed.

Lemma split_blank_cons2 (c c2 : N) (r : jstr) :
  split_blank (c :: c2 :: r) =
  if N.eqb c 10 && N.eqb c2 10 then [] :: split_blank r else cons_head c (split_blank (c2 :: r)).
Proof. reflexivity. Qed.

Lemma split_blank_single (s : jstr) : forall x, split_blank s = [x] -> x = s.
Proof.
  induction s as [|c|c c2 r IHr IHc] using split_blank_rect; intros x.
  - simpl; congruence.
  - simpl; congruence.
  - rewrite split_blank_cons2. destruct (_ && _); [intros [=]; destruct (split_blank_nonempty r); assumption|].
    unfold cons_head. destruct (split_blank (c2 :: r)) as [|y [|z zs]] eqn:E.
    + destruct (split_blank_nonempty _ E).
    + cbn. intros Heq. injection Heq as Heq. subst x. f_equal. apply IHc. reflexivity.
    + cbn. discriminate.
Qed.

Lemma split_blank_app (X Y : jstr) :
  split_blank (X ++ Y) =
  removelast (split_blank X) ++ split_blank (default [] (last (split_blank X)) ++ Y).
Proof.
  induction X as [|c|c c2 r IHr IHc] using split_blank_rect.
  - reflexivity.
  - reflexivity.
  - cbn [app]. rewrite !split_blank_cons2.
    destruct (N.eqb c 10 && N.eqb c2 10) eqn:Hsep.
    + rewrite IHr. pose proof (split_blank_nonempty r) as Hne.
      destruct (split_blank r) as [|s1 rest]; [congruence|].
      reflexivity.
    + cbn [app] in IHc. rewrite IHc.
      destruct (split_blank (c2 :: r)) as [|s1 rest] eqn:E;
        [destruct (split_blank_nonempty _ E)|].
      destruct rest as [|s2 rest].
      * apply split_blank_single in E. subst s1. simpl.
        rewrite Hsep. reflexivity.
      * reflexivity.
Qed.

Lemma ws_lines_concat (b : jstr) (chunks : list jstr) :
  chunks <> [] -> ws_lines b chunks = removelast (split_blank (b ++ concat chunks)).
Proof.
  revert b. induction chunks as [|c r IH]; intros b Hne; [congruence|].
  cbn [ws_lines concat]. destruct r as [|c' r].
  - cbn [concat]. rewrite !app_nil_r. reflexivity.
  - rewrite IH by discriminate. rewrite app_assoc, (split_blank_app (b ++ c)).
    rewrite removelast_app; [reflexivity|apply split_blank_nonempty].
Qed.

Lemma split_blank_frame (f Z : jstr) :
  ~ In 10%N f -> split_blank (f ++ 10%N :: 10%N :: Z) = f :: split_blank Z.
Proof.
  induction f as [|c f IH]; intros Hf; [reflexivity|].
  assert (c <> 10%N) as Hc by (intros ->; apply Hf; left; reflexivity).
  assert (~ In 10%N f) as Hf' by (intros H; apply Hf; right; exact H).
  destruct f as [|c2 f]; cbn [app].
  - rewrite split_blank_cons2. apply N.eqb_neq in Hc. rewrite Hc. simpl.
    reflexivity.
  - cbn [app] in IH. rewrite split_blank_cons2, (IH Hf').
    assert (c2 <> 10%N) as Hc2 by (intros ->; apply Hf'; left; reflexivity).
    apply N.eqb_neq in Hc. rewrite Hc. reflexivity.
Qed.

Lemma split_blank_sse_text (frames : list jstr) :
  Forall (fun f => ~ In 10%N f) frames -> split_blank (sse_text frames) = frames ++ [[]].
Proof.
  induction 1 as [|f fs Hf _ IH]; [reflexivity|].
  unfold sse_text. cbn [map concat]. rewrite <- app_assoc. cbn [app].
  rewrite split_blank_frame by exact Hf. fold (sse_text fs). rewrite IH. reflexivity.
Qed.

(** However the stream is cut into chunks, the workspace page reads back
    the frames of a text made of frames each followed by a blank line
    (frames without a newline). *)
Theorem ws_lines_frames (chunks frames : list jstr) :
  chunks <> [] -> concat chunks = sse_text frames ->
  Forall (fun f => ~ In 10%N f) frames ->
  ws_lines [] chunks = frames.
Proof.
  intros Hne Hc Hf. rewrite ws_lines_concat by exact Hne. cbn [app].
  rewrite Hc, split_blank_sse_text by exact Hf. apply removelast_last.
Qed.


Lemma streaming_effect_cases (files : list (jstr * jstr)) (s : display_state) :
  match streaming_effect files s with
  | Eff_none => True
  | Eff_timer name s' =>
      isComplete s' = isComplete s /\ hasNavigated s' = hasNavigated s /\
      exists content, prop_lookup name files = Some content /\
        displayedFiles s' !! name = Some (take (currentCharIndex s + 1) content) /\
        currentCharIndex s < length content
  | Eff_update s' => isComplete s' = isComplete s /\ hasNavigated s' = hasNavigated s
  | Eff_complete s' =>
      isComplete s = false /\ hasNavigated s = false /\
      isComplete s' = true /\ hasNavigated s' = true
  end.
Proof.
  unfold streaming_effect.
  case_bool_decide; [exact I|].
  set (name := match (map fst files) !! currentFileIndex s with Some n => n | None => u "undefined" end).
  destruct (Nat.ltb_spec (currentCharIndex s)
     (length (match prop_lookup name files with Some c => c | None => [] end))) as [Hlt|Hge].
  - cbn. split; [reflexivity|]. split; [reflexivity|].
    destruct (prop_lookup name files) as [content|]; [|simpl in Hlt; lia].
    exists content. split; [reflexivity|]. split; [apply lookup_insert_eq|exact Hlt].
  - destruct (Nat.ltb _ _); [split; reflexivity|].
    destruct (isComplete s), (hasNavigated s); simpl; auto.
Qed.

Lemma run_display_no_fire (fuel : nat) (files : list (jstr * jstr)) (s : display_state) :
  isComplete s = true \/ hasNavigated s = true -> ~ In Fire (run_display fuel files s).
Proof.
  revert s. induction fuel as [|fuel IH]; intros s Hs; simpl; [tauto|].
  pose proof (streaming_effect_cases files s) as Hc.
  destruct (streaming_effect files s) as [|name s'|s'|s'].
  - tauto.
  - destruct Hc as (H1 & H2 & _). intros [Hf|Hf]; [discriminate|].
    revert Hf. apply IH. rewrite H1, H2. exact Hs.
  - destruct Hc as (H1 & H2). apply IH. rewrite H1, H2. exact Hs.
  - destruct Hc as (H1 & H2 & _). destruct Hs; congruence.
Qed.

(** The reveal scheduler of [MultiFileStreamingDisplay] calls
    [onComplete] at most once, whatever the files and the starting state;
    every tick shows a non-empty prefix of the content of a file of the
    props. *)
Theorem display_fire_at_most_once (fuel : nat) (files : list (jstr * jstr)) (s : display_state) :
  (forall l1 l2, run_display fuel files s = l1 ++ Fire :: l2 -> ~ In Fire l2) /\
  (forall name shown, In (Tick name shown) (run_display fuel files s) ->
     exists content, prop_lookup name files = Some content /\ shown <> [] /\
       shown `prefix_of` content).
Proof.
  revert s. induction fuel as [|fuel IH]; intros s; simpl.
  { split; [intros l1 l2 H; destruct l1; discriminate|intros ? ? []]. }
  pose proof (streaming_effect_cases files s) as Hc.
  destruct (streaming_effect files s) as [|name s'|s'|s'].
  - split; [intros l1 l2 H; destruct l1; discriminate|intros ? ? []].
  - destruct Hc as (_ & _ & content & Hp & Hd & Hlt). destruct (IH s') as [IH1 IH2].
    split.
    + intros [|e l1] l2 H; simpl in H; [discriminate|].
      injection H as _ H. exact (IH1 l1 l2 H).
    + intros n sh [Heq|Hin]; [|exact (IH2 n sh Hin)].
      injection Heq as <- <-. rewrite Hd. exists content.
      split; [exact Hp|]. split.
      * destruct content; simpl in Hlt; [lia|]. rewrite Nat.add_1_r. simpl. discriminate.
      * apply prefix_take.
  - exact (IH s').
  - destruct Hc as (_ & _ & H1 & _). destruct (IH s') as [_ IH2]. split.
    + intros [|e l1] l2 H; simpl in H.
      * injection H as <-. apply run_display_no_fire. left. exact H1.
      * injection H as _ H. exfalso.
        apply (run_display_no_fire fuel files s'); [left; exact H1|].
        rewrite H. apply in_or_app. right. left. reflexivity.
    + intros n sh [Heq|Hin]; [discriminate|exact (IH2 n sh Hin)].
Qed.


Lemma ws_on_event_list (s : ws_state) (ev : sse_event) :
  (NoDup (ws_generatedFilesList s) -> NoDup (ws_generatedFilesList (ws_on_event s ev))) /\
  (forall x, x ∈ ws_generatedFilesList s -> x ∈ ws_generatedFilesList (ws_on_event s ev)) /\
  (forall n c ct, ev = Ev_file n c ct -> n <> [] -> c <> [] ->
     n ∈ ws_generatedFilesList (ws_on_event s ev)).
Proof.
  destruct ev as [| |n c ct|id ch ff|e]; cbn [ws_on_event ws_generatedFilesList];
    try (split; [tauto|split; [tauto|intros ? ? ? [=]]]).
  destruct (truthy (Some n) && truthy (Some c)) eqn:Ht; simpl.
  - case_bool_decide as Hin; simpl.
    + split; [tauto|]. split; [tauto|]. intros ? ? ? [= <- <- <-] _ _. exact Hin.
    + split; [|split].
      * intros Hnd. apply NoDup_app. split; [exact Hnd|]. split; [|apply NoDup_singleton].
        intros x Hx Hx'. apply list_elem_of_singleton in Hx'. subst x. contradiction.
      * intros x Hx. apply elem_of_app. left. exact Hx.
      * intros ? ? ? [= <- <- <-] _ _. apply elem_of_app. right. apply list_elem_of_singleton.
        reflexivity.
  - split; [tauto|]. split; [tauto|]. intros ? ? ? [= <- <- <-] Hn Hc.
    destruct n, c; simpl in Ht; congruence.
Qed.

(** The workspace page's list of generated files never holds a name
    twice, and holds every file of the stream with a non-empty name and
    a non-empty content. *)
Theorem ws_generated_files_list (s : ws_state) (evs : list sse_event) :
  NoDup (ws_generatedFilesList s) ->
  NoDup (ws_generatedFilesList (ws_run s evs)) /\
  forall n c ct, In (Ev_file n c ct) evs -> n <> [] -> c <> [] ->
    n ∈ ws_generatedFilesList (ws_run s evs).
Proof.
  unfold ws_run. revert s. induction evs as [|ev evs IH]; intros s Hnd; simpl.
  - split; [exact Hnd|intros ? ? ? []].
  - destruct (ws_on_event_list s ev) as (H1 & H2 & H3).
    destruct (IH (ws_on_event s ev) (H1 Hnd)) as [IH1 IH2].
    split; [exact IH1|]. intros n c ct [Heq|Hin] Hn Hc; [subst ev|exact (IH2 n c ct Hin Hn Hc)].
    assert (forall x s', x ∈ ws_generatedFilesList s' ->
              x ∈ ws_generatedFilesList (fold_left ws_on_event evs s')) as Hmono.
    { clear. induction evs as [|e evs IH]; intros x s' Hx; simpl; [exact Hx|].
      apply IH. apply (ws_on_event_list s' e). exact Hx. }
    apply Hmono. exact (H3 n c ct eq_refl Hn Hc).
Qed.


Lemma ws_lines_frames_witness :
  [u "data: a" ++ [10%N]; [10%N] ++ u "data: b" ++ [10; 10]%N] <> [] /\
  concat [u "data: a" ++ [10%N]; [10%N] ++ u "data: b" ++ [10; 10]%N] =
    sse_text [u "data: a"; u "data: b"] /\
  Forall (fun f => ~ In 10%N f) [u "data: a"; u "data: b"] /\
  ws_lines [] [u "data: a" ++ [10%N]; [10%N] ++ u "data: b" ++ [10; 10]%N] =
    [u "data: a"; u "data: b"].
Proof.
  assert (Forall (fun f => ~ In 10%N f) [u "data: a"; u "data: b"]) as Hf
    by (repeat constructor; simpl; intuition discriminate).
  split; [discriminate|]. split; [vm_compute; reflexivity|]. split; [exact Hf|].
  apply ws_lines_frames; [discriminate|vm_compute; reflexivity|exact Hf].
Defined.

Lemma ws_generated_files_list_witness :
  NoDup (ws_generatedFilesList (mkWs ∅ [] [] ∅)) /\
  NoDup (ws_generatedFilesList
    (ws_run (mkWs ∅ [] [] ∅)
       [Ev_file (u "/a.js") (u "1") St_new; Ev_file (u "/a.js") (u "2") St_updated])) /\
  (forall n c ct,
     In (Ev_file n c ct)
       [Ev_file (u "/a.js") (u "1") St_new; Ev_file (u "/a.js") (u "2") St_updated] ->
     n <> [] -> c <> [] ->
     n ∈ ws_generatedFilesList
       (ws_run (mkWs ∅ [] [] ∅)
          [Ev_file (u "/a.js") (u "1") St_new; Ev_file (u "/a.js") (u "2") St_updated])).
Proof.
  split; [constructor|]. apply ws_generated_files_list. constructor.
Defined.

Lemma fetchWithRetry_persistent_error_witness :
  (forall j, match (fun _ : nat => Fetch_response (mkResponse 500 None false)) j with
             | Fetch_network_error => True
             | Fetch_response r => resp_ok r = false /\ resp_status r <> 529%Z
             end) /\
  exists e, fetchWithRetry (fun _ => Fetch_response (mkResponse 500 None false)) =
    ([Act_fetch 1; Act_sleep 1000; Act_fetch 2; Act_sleep (1000 * (3 # 2))%Q; Act_fetch 3],
     inl e) /\ attempt_error (Fetch_response (mkResponse 500 None false)) e.
Proof.
  split; [intros j; split; [reflexivity|discriminate]|].
  apply (fetchWithRetry_persistent_error (fun _ => Fetch_response (mkResponse 500 None false))).
  intros j; split; [reflexivity|discriminate].
Defined.

Lemma no_prompt_never_saved_witness :
  let E := env_answering (text_stream (uj "{'/a.js':'1'}")) in
  let rq := mkRequest None None (Some [u "notes.txt"]) true (u "anonymous") None false in
  truthy (rq_prompt rq) = false /\
  (post (fun x => x) (fun _ => true) E ∅ rq).2 = ∅ /\
  match (post (fun x => x) (fun _ => true) E ∅ rq).1 with
  | R_ok _ _ _ _ => False
  | R_stream tr => forall id ch ff, ~ In (Ev_complete id ch ff) (sent tr)
  | R_error _ _ => True
  end.
Proof.
  cbv zeta. split; [reflexivity|].
  apply (no_prompt_never_saved (fun x => x) (fun _ => true)). reflexivity.
Defined.

Lemma new_conversation_saved_witness :
  let E := env_answering (text_stream (uj "{'/a.js':'1'}")) in
  looked_up E ∅ (generate_request true) = None /\
  match post (fun x => x) (fun _ => true) E ∅ (generate_request true) with
  | (R_ok files ff ch id, st') =>
      id = env_new_id E /\ (∅ : gmap jstr conversation) !! id = None /\
      st' = <[id := fresh_conversation (generate_request true) files ff]> ∅
  | (R_stream tr, st') =>
      forall id ch ff, In (Ev_complete id ch ff) (sent tr) ->
      id = env_new_id E /\ (∅ : gmap jstr conversation) !! id = None /\
      exists files, st' = <[id := fresh_conversation (generate_request true) files
                                   (files ∪ previous_files (generate_request true) None)]> ∅
  | _ => True
  end.
Proof.
  cbv zeta. split; [reflexivity|].
  apply (new_conversation_saved (fun x => x) (fun _ => true)). reflexivity.
Defined.

Lemma iterative_update_appends_witness :
  let c0 := mkConversation (u "anonymous") (Some (u "make a counter")) [] [] ∅ in
  let st : gmap jstr conversation := {[u "c1" := c0]} in
  let rq := mkRequest (Some (u "add a button")) None None true (u "someone") (Some (u "c1"))
              true in
  let E := env_answering (text_stream (uj "{'/a.js':'1'}")) in
  looked_up E st rq = Some (u "c1", c0) /\
  match post (fun x => x) (fun _ => true) E st rq with
  | (R_ok files ff ch id, st') =>
      id = u "c1" /\ st' = <[u "c1" := appended_conversation c0 rq ch ff]> st
  | (R_stream tr, st') =>
      forall id ch ff, In (Ev_complete id ch ff) (sent tr) ->
      id = u "c1" /\ st' = <[u "c1" := appended_conversation c0 rq ch ff]> st
  | _ => True
  end.
Proof.
  cbv zeta. split; [vm_compute; reflexivity|].
  apply (iterative_update_appends (fun x => x) (fun _ => true)). vm_compute. reflexivity.
Defined.

Lemma file_event_changeType_witness :
  ({[u "/a.js" := []]} : filestate) !! u "/a.js" = Some [] /\
  file_event (detectFileChanges {[u "/a.js" := u "1"]} {[u "/a.js" := []]}) (u "/a.js", [])
    = Ev_file (u "/a.js") [] St_deleted.
Proof.
  split; [vm_compute; reflexivity|].
  destruct (file_event_changeType {[u "/a.js" := u "1"]} {[u "/a.js" := []]} (u "/a.js") [])
    as (_ & _ & _ & _ & H); [vm_compute; reflexivity|].
  apply (H eq_refl (u "1")); [vm_compute; reflexivity|discriminate].
Defined.

Lemma extract_result_files_witness :
  extractAndParseJSON (fun x => x) (uj "{'/a.js':'1','__proto__':'2'}") =
    inr {[u "/a.js" := u "1"]} /\
  ({[u "/a.js" := u "1"]} : filestate) <> ∅ /\
  ({[u "/a.js" := u "1"]} : filestate) !! u "__proto__" = None.
Proof.
  split; [vm_compute; reflexivity|].
  apply (extract_result_files (fun x => x) (uj "{'/a.js':'1','__proto__':'2'}")).
  vm_compute. reflexivity.
Defined.

Lemma get_lists_own_conversations_witness :
  exists cs,
    get (env_answering []) (fun l => l)
      {[u "c1" := mkConversation (u "me") (Some (u "p")) [] [] ∅;
        u "c2" := mkConversation (u "you") (Some (u "q")) [] [] ∅]} (Some (u "me")) None
      = G_conversations cs /\ NoDup cs.*1 /\
    (forall id c, (id, c) ∈ cs <->
       ({[u "c1" := mkConversation (u "me") (Some (u "p")) [] [] ∅;
          u "c2" := mkConversation (u "you") (Some (u "q")) [] [] ∅]} : gmap jstr conversation) !! id = Some c /\
       cv_userId c = u "me").
Proof.
  apply get_lists_own_conversations;
    [intros l; reflexivity|reflexivity|discriminate|reflexivity].
Defined.
